(** * Reading Toolkit Generator: the card board and the generation pipeline

    A shallow embedding of [src/index.tsx]:
    - the drag-and-drop board of [SequenceCards] (state hooks [slots], [pool],
      [draggedItem] and the handlers [handleDragStart], [handleDropOnSlot],
      [handleDropOnPool], [handleReset] and the shuffling effect);
    - the generation pipeline of [App] ([extractImage], [handleGenerate]).

    React state is threaded explicitly: every handler is a function from the
    component state before the event to the state after it. *)

From Stdlib Require Import ZArith String Ascii DecimalString DecimalNat.
From stdpp Require Import base list strings.

Local Open Scope string_scope.

(** Decimal rendering of a number inside a template literal. *)
Definition show_nat (n : nat) : string := NilEmpty.string_of_uint (Nat.to_uint n).
Definition show_Z (z : Z) : string := NilEmpty.string_of_int (Z.to_int z).

(** ** JavaScript arrays *)

(** An array of card references that may contain [null], [undefined] or holes
    is a [list (option A)]. The board only ever tests such an entry for
    truthiness ([slots[i] ? ... : ...], [if (targetItem)]), so the three
    falsy entries are all read as [None]. Indices are array indices (natural
    numbers), which is what every caller in the source passes. *)

(** [a[i] = v]: an assignment inside the array overwrites, an assignment at or
    past [a.length] grows the array, leaving holes in between. *)
Definition array_set {A} (i : nat) (v : option A) (a : list (option A))
  : list (option A) :=
  if decide (i < length a) then <[i := v]> a
  else a ++ replicate (i - length a) None ++ [v].

(** [a[i]] read for truthiness: out of range reads [undefined]. *)
Definition array_get {A} (i : nat) (a : list (option A)) : option A :=
  default None (a !! i).

(** [a.splice(i, 1)] on a dense array: removes the element at [i], and removes
    nothing when [i] is at or past [a.length]. *)
Definition splice1 {A} (i : nat) (a : list A) : list A := delete i a.

(** [a.push(x)] *)
Definition push {A} (x : A) (a : list A) : list A := a ++ [x].

(** ** The card board ([SequenceCards]) *)

(** [type SequenceEvent = ToolkitData['sequenceEvents'][0]] *)
Record SequenceEvent := {
  id : string;
  order : Z;
  text : string;
  imagePrompt : string;
  imageUrl : option string
}.

Inductive DragSource := FromPool | FromSlot.

(** The value of the [draggedItem] hook when it is not [null]. *)
Record DraggedItem := {
  item : SequenceEvent;
  source : DragSource;
  index : nat
}.

(** The three state hooks of [SequenceCards]. *)
Record BoardState := {
  slots : list (option SequenceEvent);
  pool : list SequenceEvent;
  draggedItem : option DraggedItem
}.

(** [useState] defaults, the state of a freshly mounted component. *)
Definition empty_slots : list (option SequenceEvent) := [None; None; None; None].

Definition mount : BoardState :=
  {| slots := empty_slots; pool := []; draggedItem := None |}.

(** One run of [[...events].sort(() => Math.random() - 0.5)], with the random
    draws of that run fixed: it maps the array to the shuffled copy. *)
Definition Shuffle := list SequenceEvent -> list SequenceEvent.

(** The [useEffect] that runs when [data.sequenceEvents] changes; the spec
    calls it [initialize(cards)]. *)
Definition initialize (shuffle : Shuffle) (events : list SequenceEvent)
    (st : BoardState) : BoardState :=
  let shuffled := shuffle events in
  {| slots := empty_slots; pool := shuffled; draggedItem := draggedItem st |}.

Definition handleDragStart (it : SequenceEvent) (src : DragSource) (i : nat)
    (st : BoardState) : BoardState :=
  {| slots := slots st; pool := pool st;
     draggedItem := Some {| item := it; source := src; index := i |} |}.

Definition handleDropOnSlot (targetSlotIndex : nat) (st : BoardState)
  : BoardState :=
  match draggedItem st with
  | None => st
  | Some d =>
    let newSlots := slots st in
    let newPool := pool st in
    let targetItem := array_get targetSlotIndex newSlots in
    (* 1. Remove from source *)
    let '(newSlots, newPool) :=
      match source d with
      | FromPool => (newSlots, splice1 (index d) newPool)
      | FromSlot => (array_set (index d) None newSlots, newPool)
      end in
    (* 2. Handle Target *)
    let newPool :=
      match targetItem with
      | Some occupant => push occupant newPool
      | None => newPool
      end in
    (* 3. Place dragged item *)
    let newSlots := array_set targetSlotIndex (Some (item d)) newSlots in
    {| slots := newSlots; pool := newPool; draggedItem := None |}
  end.

Definition handleDropOnPool (st : BoardState) : BoardState :=
  match draggedItem st with
  | None => st
  | Some d =>
    match source d with
    | FromPool => st
    | FromSlot =>
      let newSlots := array_set (index d) None (slots st) in
      let newPool := push (item d) (pool st) in
      {| slots := newSlots; pool := newPool; draggedItem := None |}
    end
  end.

Definition handleReset (shuffle : Shuffle) (events : list SequenceEvent)
    (st : BoardState) : BoardState :=
  let shuffled := shuffle events in
  {| slots := empty_slots; pool := shuffled; draggedItem := draggedItem st |}.

(** *** What the rendered board lets the user do

    The JSX wires [handleDragStart] to the card shown in slot [i] (for
    [i] in [[0, 1, 2, 3]], only when [slots[i]] is truthy) and to the card at
    position [i] of the pool; [handleDropOnSlot] to slots 0..3;
    [handleDropOnPool] to the pool row; [handleReset] to the reset button. *)
Inductive ui_step (events : list SequenceEvent) : BoardState -> BoardState -> Prop :=
| ui_drag_pool st i c :
    pool st !! i = Some c ->
    ui_step events st (handleDragStart c FromPool i st)
| ui_drag_slot st i c :
    i < 4 -> array_get i (slots st) = Some c ->
    ui_step events st (handleDragStart c FromSlot i st)
| ui_drop_slot st i :
    i < 4 -> ui_step events st (handleDropOnSlot i st)
| ui_drop_pool st :
    ui_step events st (handleDropOnPool st)
| ui_reset st shuffle :
    shuffle events ≡ₚ events ->
    ui_step events st (handleReset shuffle events st).

(** Board states reached from the first run of the effect on a mounted
    component. *)
Inductive reachable (events : list SequenceEvent) : BoardState -> Prop :=
| reach_init shuffle :
    shuffle events ≡ₚ events ->
    reachable events (initialize shuffle events mount)
| reach_step st st' :
    reachable events st -> ui_step events st st' -> reachable events st'.

(** A recorded drag agrees with the board when the recorded origin holds the
    recorded card, as it does right after the [dragstart] of a rendered card. *)
Definition drag_consistent (st : BoardState) (d : DraggedItem) : Prop :=
  match source d with
  | FromPool => pool st !! index d = Some (item d)
  | FromSlot => slots st !! index d = Some (Some (item d))
  end.

(** *** The placement invariant *)

Definition slot_cards (st : BoardState) : list SequenceEvent :=
  omap (fun s => s) (slots st).

(** Every card reference the board holds: slot contents, then the pool. *)
Definition placed (st : BoardState) : list SequenceEvent :=
  slot_cards st ++ pool st.

Definition has_id (cid : string) (c : SequenceEvent) : bool :=
  String.eqb cid (id c).

Definition count_id (cid : string) (l : list SequenceEvent) : nat :=
  length (List.filter (has_id cid) l).

(** Number of locations (slots and pool positions) showing card [cid]. *)
Definition occurrences (cid : string) (st : BoardState) : nat :=
  count_id cid (placed st).

(** Each source card is in exactly one location. *)
Definition board_ok (events : list SequenceEvent) (st : BoardState) : Prop :=
  forall c, c ∈ events -> occurrences (id c) st = 1.

Definition board_okb (events : list SequenceEvent) (st : BoardState) : bool :=
  forallb (fun c => Nat.eqb (occurrences (id c) st) 1) events.

(** *** One engine's sort

    The order produced by [sort] under the coin-flip comparator is left to
    the JavaScript engine. [insertion_shuffle] is one such behaviour, an
    insertion sort that consumes one draw per comparison ([true] when
    [Math.random() - 0.5] is negative); it serves to run the board on
    concrete inputs. *)
Fixpoint insert_random {A} (x : A) (sorted : list A) (draws : list bool)
  : list A * list bool :=
  match sorted with
  | [] => ([x], draws)
  | y :: rest =>
    match draws with
    | [] => (x :: y :: rest, [])
    | true :: ds => (x :: y :: rest, ds)
    | false :: ds =>
      let '(r, ds') := insert_random x rest ds in (y :: r, ds')
    end
  end.

Fixpoint sort_random {A} (l : list A) (draws : list bool) : list A * list bool :=
  match l with
  | [] => ([], draws)
  | x :: t => let '(s, ds) := sort_random t draws in insert_random x s ds
  end.

Definition insertion_shuffle (draws : list bool) : Shuffle :=
  fun events => fst (sort_random events draws).

(** *** Sample cards *)

Definition card (n : nat) (caption : string) : SequenceEvent :=
  {| id := "evt-1700000000000-" ++ show_nat n;
     order := Z.of_nat (S n); text := caption;
     imagePrompt := caption; imageUrl := None |}.

Definition E1 := card 0 "Mia loses her kite".
Definition E2 := card 1 "She looks in the park".
Definition E3 := card 2 "A dog finds it".
Definition E4 := card 3 "Mia flies it again".
Definition sample_events : list SequenceEvent := [E1; E2; E3; E4].

(** A board with the first card placed and the second card in the middle of
    the pool. *)
Definition swap_board : BoardState :=
  {| slots := [Some E1; None; None; None]; pool := [E3; E2; E4];
     draggedItem := None |}.

(** The board right after the effect has shuffled the sample cards into the
    pool, in a run where the engine's sort left them in their order. *)
Definition fresh_board : BoardState :=
  initialize (insertion_shuffle []) sample_events mount.

(** A board with the first card placed. *)
Definition placed_board : BoardState :=
  {| slots := [Some E1; None; None; None]; pool := [E2; E3; E4];
     draggedItem := None |}.

(** ** The generation pipeline ([App]) *)

(** *** JavaScript values

    [JSON.parse(...) as ToolkitData] is a cast without a run-time check, so
    the parsed payload is kept as an untyped value. Numbers are integers
    here (the only number of the payload is the [order] of an event, which
    the pipeline never computes with). *)
#[warnings="-register-all"]
Inductive value :=
| VUndefined
| VNull
| VBool (b : bool)
| VNum (n : Z)
| VStr (s : string)
| VArr (elems : list value)
| VObj (props : list (string * value)).

Inductive exn :=
| Error (message : string)
| TypeError
| SyntaxError
| Rejected (reason : string).

Inductive result (A : Type) :=
| Ok (a : A)
| Throw (e : exn).
Arguments Ok {A} a.
Arguments Throw {A} e.

(** Own property [k] of an object, [undefined] when absent. *)
Fixpoint lookup_prop (k : string) (ps : list (string * value)) : value :=
  match ps with
  | [] => VUndefined
  | (k', v) :: rest => if String.eqb k k' then v else lookup_prop k rest
  end.

(** [{...ps, k: v}]: overwrite in place, or add at the end. *)
Fixpoint set_prop (k : string) (v : value) (ps : list (string * value))
  : list (string * value) :=
  match ps with
  | [] => [(k, v)]
  | (k', v') :: rest =>
    if String.eqb k k' then (k, v) :: rest else (k', v') :: set_prop k v rest
  end.

(** [v.k] for the property names the pipeline reads ([sequenceEvents],
    [title], [visualStyle], [storyText], [imagePrompt]): none of them is
    inherited from a prototype, so only an object can hold one; reading
    from [undefined] or [null] throws. *)
Definition get_prop (v : value) (k : string) : result value :=
  match v with
  | VUndefined | VNull => Throw TypeError
  | VObj ps => Ok (lookup_prop k ps)
  | _ => Ok VUndefined
  end.

Definition index_keys (l : list value) : list (string * value) :=
  imap (fun i v => (show_nat i, v)) l.

(** Own enumerable properties copied by [{...v}]. *)
Definition spread (v : value) : list (string * value) :=
  match v with
  | VObj ps => ps
  | VArr l => index_keys l
  | VStr s => index_keys (map (fun c => VStr (String c EmptyString)) (list_ascii_of_string s))
  | _ => []
  end.

(** [v.map((e, idx) => f e idx)]: only an array has a callable [map]. *)
Definition array_map (f : value -> nat -> value) (v : value) : result (list value) :=
  match v with
  | VArr l => Ok (imap (fun idx e => f e idx) l)
  | _ => Throw TypeError
  end.

(** [v.substring(0, 150)]: only a string has a callable [substring]. *)
Definition substring_0_150 (v : value) : result string :=
  match v with
  | VStr s => Ok (String.substring 0 150 s)
  | _ => Throw TypeError
  end.

(** Elements visited by [for (let i = 0; i < v.length; i++) v[i]] when [v]
    is an array. *)
Definition array_elements (v : value) : list value :=
  match v with
  | VArr l => l
  | _ => []
  end.

(** An optional string as a property value. *)
Definition optional (o : option string) : value :=
  match o with
  | Some s => VStr s
  | None => VUndefined
  end.

(** Whether an object has an own property [k], whatever its value. *)
Definition has_key (k : string) (ps : list (string * value)) : bool :=
  existsb (fun kv => String.eqb k (fst kv)) ps.

(** Whether [ToString(v)], which a template literal applies to each
    [${...}], completes. A primitive always converts. An object parsed from
    JSON converts through [Object.prototype.toString] unless it has an own
    property [toString]: that property is never callable, [valueOf] does
    not give a primitive, and the conversion ends in a [TypeError]. An
    array converts by joining the conversions of its elements. *)
Fixpoint stringifies (v : value) : bool :=
  match v with
  | VArr elems => forallb stringifies elems
  | VObj props => negb (has_key "toString" props)
  | _ => true
  end.

Definition ToString (v : value) : result unit :=
  if stringifies v then Ok tt else Throw TypeError.

(** *** The generation SDK *)

Module GenAI.

(** The parts of a [generateContent] response that the application reads. *)
Record InlineData := { mimeType : option string; data : option string }.
Record Part := { inlineData : option InlineData }.
Record Content := { parts : option (list Part) }.
Record Candidate := { content : option Content }.
Record Response := { text : option string; candidates : option (list Candidate) }.

End GenAI.

(** The three kinds of request [handleGenerate] sends, with the values that
    its prompt is built from. *)
Inductive request :=
| ContentRequest (topic childName difficulty complexityInstruction : string)
| StoryImageRequest (title visualStyle : value) (excerpt : string)
| CardImageRequest (i : nat) (visualStyle imagePrompt : value).

(** Everything outside the component that a run of the pipeline consults. *)
Record World := {
  newGoogleGenAI : result unit;
  generateContent : request -> result GenAI.Response;
  JSON_parse : string -> result value;
  Date_now : nat -> Z
}.

(** A string is truthy when it is present and not empty. *)
Definition truthy (o : option string) : option string :=
  match o with
  | Some s => if String.eqb s EmptyString then None else Some s
  | None => None
  end.

Definition part_image (p : GenAI.Part) : option string :=
  match GenAI.inlineData p with
  | Some d =>
    match truthy (GenAI.data d) with
    | Some payload =>
      Some ("data:" ++ default "image/png" (truthy (GenAI.mimeType d))
              ++ ";base64," ++ payload)
    | None => None
    end
  | None => None
  end.

Fixpoint first_image (ps : list GenAI.Part) : option string :=
  match ps with
  | [] => None
  | p :: rest =>
    match part_image p with
    | Some url => Some url
    | None => first_image rest
    end
  end.

Definition candidate_parts (c : GenAI.Candidate) : list GenAI.Part :=
  match GenAI.content c with
  | Some ct => default [] (GenAI.parts ct)
  | None => []
  end.

Fixpoint first_candidate_image (cs : list GenAI.Candidate) : option string :=
  match cs with
  | [] => None
  | c :: rest =>
    match first_image (candidate_parts c) with
    | Some url => Some url
    | None => first_candidate_image rest
    end
  end.

Definition extractImage (response : GenAI.Response) : option string :=
  first_candidate_image (default [] (GenAI.candidates response)).

(** *** Component state and observable effects *)

Inductive effect :=
| Sent (r : request)
| Published (d : option value)
| ConsoleError (label : string) (e : exn)
| Alert (message : string).

(** The three state hooks of [App], and the effects performed so far. *)
Record AppState := {
  loading : bool;
  statusMessage : string;
  toolkitData : option value;
  trace : list effect
}.

(** A computation that reads and writes the component state and may throw;
    the state written before a throw is kept. *)
Definition M (A : Type) : Type := AppState -> result A * AppState.

Definition ret {A} (a : A) : M A := fun st => (Ok a, st).

Definition throw {A} (e : exn) : M A := fun st => (Throw e, st).

Definition bind {A B} (m : M A) (k : A -> M B) : M B :=
  fun st =>
    match m st with
    | (Ok a, st') => k a st'
    | (Throw e, st') => (Throw e, st')
    end.

Notation "x <- m ;; k" := (bind m (fun x => k))
  (at level 100, m at next level, right associativity).
Notation "m ;;; k" := (bind m (fun _ => k))
  (at level 100, right associativity).

Definition lift {A} (r : result A) : M A := fun st => (r, st).

(** [try { m } catch (e) { h e }] *)
Definition try_catch {A} (m : M A) (h : exn -> M A) : M A :=
  fun st =>
    match m st with
    | (Ok a, st') => (Ok a, st')
    | (Throw e, st') => h e st'
    end.

(** [try { m } finally { f }] *)
Definition try_finally {A} (m : M A) (f : M unit) : M A :=
  fun st =>
    match m st with
    | (r, st') =>
      match f st' with
      | (Ok _, st'') => (r, st'')
      | (Throw e, st'') => (Throw e, st'')
      end
    end.

Definition perform (e : effect) : M unit :=
  fun st =>
    (Ok tt, {| loading := loading st; statusMessage := statusMessage st;
               toolkitData := toolkitData st; trace := trace st ++ [e] |}).

Definition setLoading (b : bool) : M unit :=
  fun st =>
    (Ok tt, {| loading := b; statusMessage := statusMessage st;
               toolkitData := toolkitData st; trace := trace st |}).

Definition setStatusMessage (msg : string) : M unit :=
  fun st =>
    (Ok tt, {| loading := loading st; statusMessage := msg;
               toolkitData := toolkitData st; trace := trace st |}).

Definition setToolkitData (d : option value) : M unit :=
  fun st =>
    (Ok tt, {| loading := loading st; statusMessage := statusMessage st;
               toolkitData := d; trace := trace st ++ [Published d] |}).

(** [await ai.models.generateContent(...)] *)
Definition send (w : World) (r : request) : M GenAI.Response :=
  perform (Sent r) ;;; lift (generateContent w r).

(** *** [handleGenerate] *)

Definition complexityInstruction (difficulty : string) : string :=
  if String.eqb difficulty "Easy" then
    "Level: Easy/Early Reader (Grade 1). Text: Simple S-V-O sentences. High repetition. 80-100 words. Questions: Very direct (Explicit retrieval). Inference: Extremely obvious clue."
  else if String.eqb difficulty "Medium" then
    "Level: Standard Grade 2. Text: Varied sentence structure. ~120 words. Narrative flow. Questions: Standard comprehension. Inference: Clear clue."
  else
    "Level: Advanced Grade 2 / Early Grade 3. Text: Complex sentences, richer vocabulary. ~150 words. Questions: Requires synthesis. Inference: Subtle clue.".

(** [{ ...e, id: `evt-${Date.now()}-${idx}` }] *)
Definition with_id (w : World) (e : value) (idx : nat) : value :=
  VObj (set_prop "id" (VStr ("evt-" ++ show_Z (Date_now w idx) ++ "-" ++ show_nat idx))
          (spread e)).

(** The request of iteration [i], when the prompt can be built: the
    template converts [initialData.visualStyle] and [event.imagePrompt] to
    text, in this order. *)
Definition card_request (initialData : value) (i : nat) (event : value)
  : result request :=
  match get_prop initialData "visualStyle" with
  | Throw e => Throw e
  | Ok visualStyle =>
    match ToString visualStyle with
    | Throw e => Throw e
    | Ok _ =>
      match get_prop event "imagePrompt" with
      | Throw e => Throw e
      | Ok imagePrompt =>
        match ToString imagePrompt with
        | Throw e => Throw e
        | Ok _ => Ok (CardImageRequest i visualStyle imagePrompt)
        end
      end
    end
  end.

(** One iteration of the illustration loop: the updated array after the
    event at position [i] has been processed. *)
Definition illustrate_card (w : World) (initialData : value) (i : nat)
    (event : value) (updatedEvents : list value) : M (list value) :=
  setStatusMessage ("Illustrating Card " ++ show_nat (i + 1) ++ "/4...") ;;;
  try_catch
    (visualStyle <- lift (get_prop initialData "visualStyle") ;;
     _ <- lift (ToString visualStyle) ;;
     imagePrompt <- lift (get_prop event "imagePrompt") ;;
     _ <- lift (ToString imagePrompt) ;;
     seqImgResponse <- send w (CardImageRequest i visualStyle imagePrompt) ;;
     ret (push (VObj (set_prop "imageUrl" (optional (extractImage seqImgResponse))
                        (spread event)))
               updatedEvents))
    (fun e =>
       perform (ConsoleError ("Failed to generate image for event " ++ show_nat i) e) ;;;
       ret (push event updatedEvents)).

(** The element that iteration [i] appends for [event]: the event with its
    [imageUrl] set from the response, or the event itself when anything in
    the [try] block throws. *)
Definition illustrated (w : World) (initialData : value) (i : nat)
    (event : value) : value :=
  match card_request initialData i event with
  | Throw _ => event
  | Ok r =>
    match generateContent w r with
    | Throw _ => event
    | Ok seqImgResponse =>
      VObj (set_prop "imageUrl" (optional (extractImage seqImgResponse))
              (spread event))
    end
  end.

(** Two states of [App] that differ at most in the status line and the
    trace. *)
Definition same_content (st st' : AppState) : Prop :=
  loading st' = loading st /\ toolkitData st' = toolkitData st.

(** The [for] loop from position [i] on, over the events still to process. *)
Fixpoint illustrate_cards (w : World) (initialData : value) (i : nat)
    (events : list value) (updatedEvents : list value) : M (list value) :=
  match events with
  | [] => ret updatedEvents
  | event :: rest =>
    updatedEvents' <- illustrate_card w initialData i event updatedEvents ;;
    illustrate_cards w initialData (S i) rest updatedEvents'
  end.

(** The structured-content request for a topic, a child and a difficulty. *)
Definition contentRequest (topic childName difficulty : string) : request :=
  ContentRequest topic childName difficulty (complexityInstruction difficulty).

(** The body of the [try] block. *)
Definition generate (w : World) (topic childName difficulty : string) : M unit :=
  _ <- lift (newGoogleGenAI w) ;;
  setStatusMessage "Writing Story..." ;;;
  setToolkitData None ;;;
  textResponse <- send w (contentRequest topic childName difficulty) ;;
  match truthy (GenAI.text textResponse) with
  | None => throw (Error "No text generated")
  | Some responseText =>
    initialData <- lift (JSON_parse w responseText) ;;
    (* Add unique IDs for drag and drop stability *)
    sequenceEvents <- lift (get_prop initialData "sequenceEvents") ;;
    eventsWithIds <- lift (array_map (with_id w) sequenceEvents) ;;
    let dataWithIds :=
      VObj (set_prop "childName" (VStr childName)
              (set_prop "sequenceEvents" (VArr eventsWithIds)
                 (spread initialData))) in
    setToolkitData (Some dataWithIds) ;;;
    (* 2. Generate Main Story Image *)
    setStatusMessage "Illustrating Story..." ;;;
    title <- lift (get_prop initialData "title") ;;
    _ <- lift (ToString title) ;;
    visualStyle <- lift (get_prop initialData "visualStyle") ;;
    _ <- lift (ToString visualStyle) ;;
    storyText <- lift (get_prop initialData "storyText") ;;
    excerpt <- lift (substring_0_150 storyText) ;;
    storyImgResponse <- send w (StoryImageRequest title visualStyle excerpt) ;;
    let storyImgUrl := extractImage storyImgResponse in
    let dataWithStoryImg :=
      VObj (set_prop "storyImageUrl" (optional storyImgUrl) (spread dataWithIds)) in
    setToolkitData (Some dataWithStoryImg) ;;;
    (* 3. Generate Sequence Images *)
    events <- lift (get_prop dataWithStoryImg "sequenceEvents") ;;
    updatedEvents <-
      illustrate_cards w initialData 0 (array_elements events) [] ;;
    setToolkitData
      (Some (VObj (set_prop "sequenceEvents" (VArr updatedEvents)
                     (spread dataWithStoryImg))))
  end.

Definition rejection_alert : string := "Something went wrong! Please try again.".

Definition handleGenerate (w : World) (topic childName difficulty : string)
  : M unit :=
  setLoading true ;;;
  setStatusMessage "Warming up..." ;;;
  try_finally
    (try_catch
       (generate w topic childName difficulty)
       (fun error =>
          perform (ConsoleError "Error generating toolkit:" error) ;;;
          perform (Alert rejection_alert)))
    (setLoading false).


(** *** Outcome of a run whose payload is taken over

    For a parsed payload [VObj ps] whose [sequenceEvents] is an array
    [evs]: the content published first, the story-image request, and the
    content shown when the run ends. *)
Definition content_with_ids (w : World) (childName : string)
    (ps : list (string * value)) (evs : list value) : list (string * value) :=
  set_prop "childName" (VStr childName)
    (set_prop "sequenceEvents" (VArr (imap (fun idx e => with_id w e idx) evs)) ps).

(** The story-image request built from a payload, when the prompt can be
    built: [title] and [visualStyle] convert to text and [storyText] is a
    string. *)
Definition storyImageRequest (ps : list (string * value)) : result request :=
  match ToString (lookup_prop "title" ps) with
  | Throw e => Throw e
  | Ok _ =>
    match ToString (lookup_prop "visualStyle" ps) with
    | Throw e => Throw e
    | Ok _ =>
      match substring_0_150 (lookup_prop "storyText" ps) with
      | Throw e => Throw e
      | Ok excerpt =>
        Ok (StoryImageRequest (lookup_prop "title" ps)
              (lookup_prop "visualStyle" ps) excerpt)
      end
    end
  end.

(** The outcome of the story-image phase up to the response. *)
Definition story_phase (w : World) (ps : list (string * value))
  : result GenAI.Response :=
  match storyImageRequest ps with
  | Throw e => Throw e
  | Ok r => generateContent w r
  end.

Definition final_content (w : World) (childName : string)
    (ps : list (string * value)) (evs : list value) : list (string * value) :=
  let dataWithIds := content_with_ids w childName ps evs in
  match story_phase w ps with
  | Throw _ => dataWithIds
  | Ok storyImgResponse =>
    set_prop "sequenceEvents"
      (VArr (imap (fun i e => illustrated w (VObj ps) i (with_id w e i)) evs))
      (set_prop "storyImageUrl" (optional (extractImage storyImgResponse))
         dataWithIds)
  end.

(** What a run that throws before its first publication adds to the trace:
    the cleared toolkit, the request, the logged error and the alert. *)
Definition rejected_trace (topic childName difficulty : string) (e : exn)
  : list effect :=
  [Published None; Sent (contentRequest topic childName difficulty);
   ConsoleError "Error generating toolkit:" e; Alert rejection_alert].

(** The state of [App] when the page has loaded. *)
Definition app_mount : AppState :=
  {| loading := false; statusMessage := "Generating Toolkit...";
     toolkitData := None; trace := [] |}.

(** *** Sample payloads and services *)

Definition sample_event (n : Z) (caption : string) : value :=
  VObj [("order", VNum n); ("text", VStr caption); ("imagePrompt", VStr caption)].

Definition sample_question (kind q a : string) : value :=
  VObj [("type", VStr kind); ("question", VStr q); ("answer", VStr a)].

Definition sample_story : string := "Mia had a red kite. The wind took it away.".

Definition sample_props (questions events : list value) : list (string * value) :=
  [("title", VStr "Mia and the Kite");
   ("storyText", VStr sample_story);
   ("visualStyle", VStr "Soft storybook watercolor");
   ("questions", VArr questions);
   ("sequenceEvents", VArr events);
   ("inference", VObj [("scenario", VStr "Mia smiled at the dog.");
                       ("starter", VStr "I think...");
                       ("reasonStarter", VStr "Because...")])].

Definition sample_payload (questions events : list value) : value :=
  VObj (sample_props questions events).

Definition four_questions : list value :=
  [sample_question "Who" "Who had a kite?" "Mia";
   sample_question "What" "What took the kite?" "The wind";
   sample_question "Where" "Where did she look?" "In the park";
   sample_question "When" "When did she find it?" "At noon"].

Definition four_events : list value :=
  [sample_event 1 "Mia loses her kite"; sample_event 2 "She looks in the park";
   sample_event 3 "A dog finds it"; sample_event 4 "Mia flies it again"].

Definition image_response (payload : string) : GenAI.Response :=
  {| GenAI.text := None;
     GenAI.candidates :=
       Some [{| GenAI.content :=
                  Some {| GenAI.parts :=
                            Some [{| GenAI.inlineData :=
                                       Some {| GenAI.mimeType := Some "image/png";
                                               GenAI.data := Some payload |} |}] |} |}] |}.

Definition no_image_response : GenAI.Response :=
  {| GenAI.text := None; GenAI.candidates := Some [] |}.

Definition text_response (t : option string) : GenAI.Response :=
  {| GenAI.text := t; GenAI.candidates := None |}.

(** A service whose content response carries the text ["payload"], which
    parses to [payload]; the story image comes back as [hero] and the image
    of card [i] as [cards i]. *)
Definition sample_world (contentText : option string) (payload : value)
    (hero : result GenAI.Response) (cards : nat -> result GenAI.Response) : World :=
  {| newGoogleGenAI := Ok tt;
     generateContent := fun r =>
       match r with
       | ContentRequest _ _ _ _ => Ok (text_response contentText)
       | StoryImageRequest _ _ _ => hero
       | CardImageRequest i _ _ => cards i
       end;
     JSON_parse := fun s =>
       if String.eqb s "payload" then Ok payload else Throw SyntaxError;
     Date_now := fun _ => 1700000000000%Z |}.

Definition partial_failure_world : World :=
  sample_world (Some "payload") (sample_payload four_questions four_events)
    (Ok no_image_response)
    (fun i => if Nat.eqb i 2 then Throw (Rejected "503")
              else Ok (image_response ("img" ++ show_nat i))).






(** A service whose content response has an empty text. *)
Definition empty_text_world : World :=
  sample_world (Some EmptyString) (sample_payload four_questions four_events)
    (Ok (image_response "hero"))
    (fun i => Ok (image_response ("img" ++ show_nat i))).


(** The [imageUrl] of each event of the toolkit on display. *)
Definition displayed_image_urls (st : AppState) : list value :=
  match toolkitData st with
  | Some (VObj content) =>
    map (fun e => match e with
                  | VObj ps => lookup_prop "imageUrl" ps
                  | _ => VUndefined
                  end)
        (array_elements (lookup_prop "sequenceEvents" content))
  | _ => []
  end.

(** Whether the failure notice was shown. *)
Definition alerted (st : AppState) : bool :=
  existsb (fun e => match e with Alert _ => true | _ => false end) (trace st).

(** ** Gestures on the rendered board

    A gesture is what one drag of the pointer does: the [dragstart] of a
    rendered card followed by the [drop] on a drop zone, or a press of the
    reset button. Where no card is rendered at the position, there is
    nothing to drag and the board stays as it is. *)
Inductive gesture :=
| PoolToSlot (j k : nat)
| SlotToSlot (i k : nat)
| SlotToPool (i : nat)
| PoolToPool (j : nat)
| PressReset (shuffle : Shuffle).

(** [dragstart] on the card rendered at position [j] of the pool. *)
Definition drag_from_pool (j : nat) (st : BoardState) : option BoardState :=
  match pool st !! j with
  | Some c => Some (handleDragStart c FromPool j st)
  | None => None
  end.

(** [dragstart] on the card rendered in slot [i]. *)
Definition drag_from_slot (i : nat) (st : BoardState) : option BoardState :=
  match array_get i (slots st) with
  | Some c => Some (handleDragStart c FromSlot i st)
  | None => None
  end.

Definition perform_gesture (events : list SequenceEvent) (g : gesture)
    (st : BoardState) : BoardState :=
  match g with
  | PoolToSlot j k =>
    match drag_from_pool j st with
    | Some dragging => handleDropOnSlot k dragging
    | None => st
    end
  | SlotToSlot i k =>
    match drag_from_slot i st with
    | Some dragging => handleDropOnSlot k dragging
    | None => st
    end
  | SlotToPool i =>
    match drag_from_slot i st with
    | Some dragging => handleDropOnPool dragging
    | None => st
    end
  | PoolToPool j =>
    match drag_from_pool j st with
    | Some dragging => handleDropOnPool dragging
    | None => st
    end
  | PressReset shuffle => handleReset shuffle events st
  end.

(** The gestures the JSX offers: slots are the four rendered ones, and the
    engine's sort rearranges the cards. *)
Definition gesture_ok (events : list SequenceEvent) (g : gesture) : Prop :=
  match g with
  | PoolToSlot _ k => k < 4
  | SlotToSlot i k => i < 4 /\ k < 4
  | SlotToPool i => i < 4
  | PoolToPool _ => True
  | PressReset shuffle => shuffle events ≡ₚ events
  end.

(** A gesture that does not drop a slot's card on its own slot. *)
Definition leaves_origin (g : gesture) : Prop :=
  match g with
  | SlotToSlot i k => i <> k
  | _ => True
  end.

(** The board after the first shuffle and a sequence of gestures. *)
Definition play (events : list SequenceEvent) (first : Shuffle)
    (gs : list gesture) : BoardState :=
  fold_left (fun st g => perform_gesture events g st) gs
    (initialize first events mount).

(** A board on which the defect of the drop on the origin slot has left the
    first card twice in the pool: the first card goes to slot 1 and is
    dropped twice on its own slot, then the second card goes to slot 0. *)
Definition doubled_board : BoardState :=
  play sample_events (insertion_shuffle [])
    [PoolToSlot 0 1; SlotToSlot 1 1; SlotToSlot 1 1; PoolToSlot 0 0].

(** Four slots, only cards with property [P] on the board, and a recorded
    drag that names such a card and, when it started in a slot, one of the
    four slots. *)
Definition board_shape (P : SequenceEvent -> Prop) (st : BoardState) : Prop :=
  length (slots st) = 4 /\
  (forall c, c ∈ placed st -> P c) /\
  (forall d, draggedItem st = Some d ->
     P (item d) /\ (source d = FromSlot -> index d < 4)).

(** The boards of a mounted component, with the source cards of the
    moment. Besides the steps of the rendered board, the effect runs again
    when the pipeline publishes the illustrated events: a new array of new
    card objects that carry the identifiers of the old ones in the same
    order. The effect deals the new cards and keeps the recorded drag. *)
Inductive mounted : list SequenceEvent -> BoardState -> Prop :=
| mounted_init events shuffle :
    shuffle events ≡ₚ events ->
    mounted events (initialize shuffle events mount)
| mounted_ui events st st' :
    mounted events st -> ui_step events st st' -> mounted events st'
| mounted_illustrated events events' shuffle st :
    mounted events st ->
    id <$> events' = id <$> events ->
    shuffle events' ≡ₚ events' ->
    mounted events' (initialize shuffle events' st).

(** The sample cards once illustrated. *)
Definition illustrate (c : SequenceEvent) : SequenceEvent :=
  {| id := id c; order := order c; text := text c; imagePrompt := imagePrompt c;
     imageUrl := Some ("data:image/png;base64," ++ text c) |}.

Definition illustrated_events : list SequenceEvent := map illustrate sample_events.

(** ** Views used to state properties of the pipeline *)

(** Every part of a response, candidate after candidate, in the order in
    which the two loops of [extractImage] visit them. *)
Definition all_parts (response : GenAI.Response) : list GenAI.Part :=
  concat (map candidate_parts (default [] (GenAI.candidates response))).

(** The identifier that [with_id] gives the event at position [idx]. *)
Definition event_id (w : World) (idx : nat) : string :=
  "evt-" ++ show_Z (Date_now w idx) ++ "-" ++ show_nat idx.

(** The requests and the publications of a trace, in order. *)
Definition requests_of (tr : list effect) : list request :=
  omap (fun e => match e with Sent r => Some r | _ => None end) tr.

Definition publications_of (tr : list effect) : list (option value) :=
  omap (fun e => match e with Published d => Some d | _ => None end) tr.

(** The effects of iteration [i] of the illustration loop, status line
    apart. *)
Definition card_effects (w : World) (initialData : value) (i : nat)
    (event : value) : list effect :=
  let failed e :=
    ConsoleError ("Failed to generate image for event " ++ show_nat i) e in
  match card_request initialData i event with
  | Throw e => [failed e]
  | Ok r =>
    Sent r :: match generateContent w r with
              | Ok _ => []
              | Throw e => [failed e]
              end
  end.

(** A response whose first candidate has no content, whose second has a
    part with empty data, then a part without media type. *)
Definition mixed_response : GenAI.Response :=
  {| GenAI.text := None;
     GenAI.candidates :=
       Some [{| GenAI.content := None |};
             {| GenAI.content :=
                  Some {| GenAI.parts :=
                            Some [{| GenAI.inlineData := None |};
                                  {| GenAI.inlineData :=
                                       Some {| GenAI.mimeType := Some "image/jpeg";
                                               GenAI.data := Some EmptyString |} |};
                                  {| GenAI.inlineData :=
                                       Some {| GenAI.mimeType := None;
                                               GenAI.data := Some "AAAA" |} |};
                                  {| GenAI.inlineData :=
                                       Some {| GenAI.mimeType := Some "image/jpeg";
                                               GenAI.data := Some "BBBB" |} |}] |} |}] |}.

(** The image request for the event at position [i] of a payload, when
    its prompt can be built. *)
Definition cardImageRequest (ps : list (string * value)) (i : nat) (e : value)
  : result request :=
  if stringifies (lookup_prop "visualStyle" ps)
     && stringifies (lookup_prop "imagePrompt" (spread e))
  then Ok (CardImageRequest i (lookup_prop "visualStyle" ps)
             (lookup_prop "imagePrompt" (spread e)))
  else Throw TypeError.

(** The outcome of the [try] block of iteration [i] up to the response. *)
Definition card_phase (w : World) (ps : list (string * value)) (i : nat)
    (e : value) : result GenAI.Response :=
  match cardImageRequest ps i e with
  | Throw err => Throw err
  | Ok r => generateContent w r
  end.

(** A part with non-empty inline data, and the data URI made from a part's
    inline data. *)
Definition has_data (p : GenAI.Part) : bool :=
  match GenAI.inlineData p with
  | Some d =>
    match GenAI.data d with
    | Some payload => negb (String.eqb payload EmptyString)
    | None => false
    end
  | None => false
  end.

Definition data_uri (d : GenAI.InlineData) (payload : string) : string :=
  "data:" ++ match GenAI.mimeType d with
             | Some m => if String.eqb m EmptyString then "image/png" else m
             | None => "image/png"
             end ++ ";base64," ++ payload.

(** Whether a trace shows the failure notice. *)
Definition has_alert (tr : list effect) : bool :=
  existsb (fun e => match e with Alert _ => true | _ => false end) tr.

(** A service whose story-image request is rejected. *)
Definition hero_failure_world : World :=
  sample_world (Some "payload") (sample_payload four_questions four_events)
    (Throw (Rejected "429"))
    (fun i => Ok (image_response ("img" ++ show_nat i))).

(** A service whose payload conforms to the schema except that a number
    stands where the story text should be. *)
Definition no_story_props : list (string * value) :=
  [("title", VStr "Mia and the Kite");
   ("storyText", VNum 7);
   ("visualStyle", VStr "Soft storybook watercolor");
   ("questions", VArr four_questions);
   ("sequenceEvents", VArr four_events);
   ("inference", VObj [("scenario", VStr "Mia smiled at the dog.");
                       ("starter", VStr "I think...");
                       ("reasonStarter", VStr "Because...")])].

Definition no_story_world : World :=
  sample_world (Some "payload") (VObj no_story_props)
    (Ok (image_response "hero"))
    (fun i => Ok (image_response ("img" ++ show_nat i))).

(** A service whose client cannot be constructed, and one whose content
    request is rejected. *)
Definition no_client_world : World :=
  {| newGoogleGenAI := Throw (Error "An API Key must be set");
     generateContent := generateContent partial_failure_world;
     JSON_parse := JSON_parse partial_failure_world;
     Date_now := Date_now partial_failure_world |}.

Definition offline_world : World :=
  {| newGoogleGenAI := Ok tt;
     generateContent := fun _ => Throw (Rejected "network");
     JSON_parse := JSON_parse partial_failure_world;
     Date_now := Date_now partial_failure_world |}.

(** A state of [App] with a toolkit on display. *)
Definition showing_toolkit : AppState :=
  {| loading := false; statusMessage := "Illustrating Card 4/4...";
     toolkitData := Some (sample_payload four_questions four_events);
     trace := [] |}.

(** A clock that ticks between the callbacks of [map]. *)
Definition ticking_world : World :=
  {| newGoogleGenAI := Ok tt;
     generateContent := generateContent partial_failure_world;
     JSON_parse := JSON_parse partial_failure_world;
     Date_now := fun idx => (1700000000000 + Z.of_nat idx)%Z |}.

(** The separator of the parts of an event identifier. *)
Definition dash : ascii := "-"%char.

(** Events that come with an identifier of their own, the same for both. *)
Definition events_with_own_id : list value :=
  [VObj [("id", VStr "same"); ("order", VNum 1); ("text", VStr "Mia loses her kite");
         ("imagePrompt", VStr "A girl looks up at an empty sky")];
   VObj [("id", VStr "same"); ("order", VNum 2); ("text", VStr "A dog finds it");
         ("imagePrompt", VStr "A dog holds a red kite")]].

(** ** The form ([GeneratorForm])

    A string is the sequence of its code units, each below 256 here. Of
    these, [String.prototype.trim] strips tab, line feed, vertical tab,
    form feed, carriage return, space and no-break space. *)
Definition is_white_space (c : ascii) : bool :=
  let n := nat_of_ascii c in
  (n =? 9)%nat || (n =? 10)%nat || (n =? 11)%nat || (n =? 12)%nat
  || (n =? 13)%nat || (n =? 32)%nat || (n =? 160)%nat.

Fixpoint trimStart (s : string) : string :=
  match s with
  | EmptyString => EmptyString
  | String c rest => if is_white_space c then trimStart rest else s
  end.

Fixpoint trimEnd (s : string) : string :=
  match s with
  | EmptyString => EmptyString
  | String c rest =>
    match trimEnd rest with
    | EmptyString => if is_white_space c then EmptyString else String c EmptyString
    | kept => String c kept
    end
  end.

Definition trim (s : string) : string := trimEnd (trimStart s).

(** A string without any character other than white space. *)
Fixpoint blank (s : string) : bool :=
  match s with
  | EmptyString => true
  | String c rest => is_white_space c && blank rest
  end.

(** The arguments with which [handleSubmit] calls [onGenerate], if it
    calls it: [if (topic.trim()) onGenerate(topic, childName.trim() ||
    "the student", difficulty)]. *)
Definition handleSubmit (topic childName difficulty : string)
  : option (string * string * string) :=
  match truthy (Some (trim topic)) with
  | Some _ =>
    Some (topic, default "the student" (truthy (Some (trim childName))), difficulty)
  | None => None
  end.

(** A key that makes the conversion of an object to text throw. *)
Definition unprintable : value := VObj [("toString", VNum 1)].

(** A service whose second event has an image prompt that cannot be
    converted to text, and one whose title cannot. *)
Definition odd_events : list value :=
  [sample_event 1 "Mia loses her kite";
   VObj [("order", VNum 2); ("text", VStr "She looks in the park");
         ("imagePrompt", unprintable)];
   sample_event 3 "A dog finds it"].

Definition odd_prompt_world : World :=
  sample_world (Some "payload") (sample_payload four_questions odd_events)
    (Ok (image_response "hero"))
    (fun i => Ok (image_response ("img" ++ show_nat i))).

Definition odd_title_props : list (string * value) :=
  [("title", unprintable);
   ("storyText", VStr sample_story);
   ("visualStyle", VStr "Soft storybook watercolor");
   ("questions", VArr four_questions);
   ("sequenceEvents", VArr four_events)].

Definition odd_title_world : World :=
  sample_world (Some "payload") (VObj odd_title_props)
    (Ok (image_response "hero"))
    (fun i => Ok (image_response ("img" ++ show_nat i))).
(** * Properties of the card board *)

Local Open Scope list_scope.

Section ArrayFacts.
Context {A : Type}.
Implicit Types (a : list (option A)) (v : option A).

Lemma array_set_inside i v a :
  i < length a -> array_set i v a = <[i := v]> a.
Proof. intros Hi. unfold array_set. by rewrite decide_True. Qed.


Lemma array_get_set i v a : array_get i (array_set i v a) = v.
Proof.
  unfold array_get, array_set. case_decide as Hi.
  - by rewrite list_lookup_insert_eq.
  - rewrite lookup_app_r by lia.
    rewrite lookup_app_r; rewrite length_replicate; [| lia].
    by replace (i - length a - (i - length a)) with 0 by lia.
Qed.

Lemma array_get_Some i a x :
  array_get i a = Some x -> a !! i = Some (Some x) /\ i < length a.
Proof.
  unfold array_get. destruct (a !! i) as [o|] eqn:E; simpl; [| done].
  intros ->. split; [done |]. by eapply lookup_lt_Some.
Qed.

Lemma array_set_same i a x :
  array_get i a = Some x -> array_set i (Some x) (array_set i None a) = a.
Proof.
  intros [Hl Hi]%array_get_Some.
  rewrite (array_set_inside i None a Hi).
  rewrite array_set_inside by (by rewrite length_insert).
  rewrite list_insert_insert_eq. by apply list_insert_id.
Qed.

End ArrayFacts.

(** ** Counting cards *)

Section Counting.
Implicit Types (l : list SequenceEvent) (c : SequenceEvent) (cid : string).

Lemma count_id_cons cid c l :
  count_id cid (c :: l) = (if has_id cid c then 1 else 0) + count_id cid l.
Proof. unfold count_id. simpl. by destruct (has_id cid c). Qed.

Lemma count_id_app cid l1 l2 :
  count_id cid (l1 ++ l2) = count_id cid l1 + count_id cid l2.
Proof. unfold count_id. by rewrite List.filter_app, length_app. Qed.

Lemma count_id_perm cid l1 l2 : l1 ≡ₚ l2 -> count_id cid l1 = count_id cid l2.
Proof.
  induction 1 as [| x l1 l2 _ IH | x y l | l1 l2 l3 _ IH1 _ IH2].
  - done.
  - rewrite !count_id_cons. by rewrite IH.
  - rewrite !count_id_cons. lia.
  - congruence.
Qed.

Lemma has_id_true cid c : has_id cid c = true <-> cid = id c.
Proof. unfold has_id. apply String.eqb_eq. Qed.

Lemma count_id_absent cid l : cid ∉ id <$> l -> count_id cid l = 0.
Proof.
  induction l as [| c l IH]; [done |].
  rewrite fmap_cons, not_elem_of_cons. intros [Hne Hnin].
  rewrite count_id_cons, IH by done.
  destruct (has_id cid c) eqn:E; [| done].
  by apply has_id_true in E.
Qed.

Lemma count_id_unique c l : NoDup (id <$> l) -> c ∈ l -> count_id (id c) l = 1.
Proof.
  induction l as [| x l IH]; [by intros _ ?%elem_of_nil |].
  rewrite fmap_cons, NoDup_cons. intros [Hx Hnd] Hin.
  rewrite count_id_cons. apply elem_of_cons in Hin as [-> | Hin].
  - rewrite (proj2 (has_id_true (id x) x)) by done.
    by rewrite count_id_absent.
  - rewrite IH by done.
    destruct (has_id (id c) x) eqn:E; [| done].
    apply has_id_true in E. exfalso. apply Hx. rewrite <- E.
    by apply list_elem_of_fmap_2.
Qed.

Lemma board_okb_spec events st : board_okb events st = true <-> board_ok events st.
Proof.
  unfold board_okb, board_ok. rewrite forallb_forall. split.
  - intros H c Hc. apply Nat.eqb_eq, H. by apply list_elem_of_In.
  - intros H c Hc. apply Nat.eqb_eq, H. by apply list_elem_of_In.
Qed.

End Counting.

(** ** The engine's sort rearranges *)

Lemma insert_random_perm {A} (x : A) (sorted : list A) (draws : list bool) :
  (insert_random x sorted draws).1 ≡ₚ x :: sorted.
Proof.
  revert draws. induction sorted as [| y rest IH]; intros draws; [done |].
  destruct draws as [| [] ds]; simpl; [done | done |].
  specialize (IH ds). destruct (insert_random x rest ds) as [r ds']. simpl in *.
  rewrite IH. apply Permutation_swap.
Qed.

Lemma sort_random_perm {A} (l : list A) (draws : list bool) :
  (sort_random l draws).1 ≡ₚ l.
Proof.
  induction l as [| x t IH]; [done |]. simpl.
  destruct (sort_random t draws) as [s ds]. simpl in IH.
  by rewrite insert_random_perm, IH.
Qed.

Lemma insertion_shuffle_perm draws events : insertion_shuffle draws events ≡ₚ events.
Proof. apply sort_random_perm. Qed.

(** ** Drops on the board *)

Section Drops.
Implicit Types (st : BoardState) (c : SequenceEvent) (d : DraggedItem).

(** What a drop on the origin slot computes: the occupant read before the
    origin is cleared is pushed to the pool, and the card is written back. *)
Lemma drop_on_origin_slot st i c :
  array_get i (slots st) = Some c ->
  handleDropOnSlot i (handleDragStart c FromSlot i st)
  = {| slots := slots st; pool := pool st ++ [c]; draggedItem := None |}.
Proof.
  intros Hc. unfold handleDropOnSlot, handleDragStart. simpl.
  rewrite Hc. by rewrite array_set_same.
Qed.

Lemma ids_apart_delete (l : list SequenceEvent) j b :
  NoDup (id <$> l) -> l !! j = Some b ->
  forall c, c ∈ delete j l -> id c <> id b.
Proof.
  intros Hnd Hj c Hc Heq.
  rewrite <- (take_drop_middle l j b Hj) in Hnd.
  rewrite fmap_app, fmap_cons in Hnd.
  apply NoDup_app in Hnd as (_ & Hl & Hr). apply NoDup_cons in Hr as [Hr _].
  rewrite delete_take_drop in Hc. apply elem_of_app in Hc as [Hc | Hc].
  - apply (Hl (id b)); [| left].
    rewrite <- Heq. by apply list_elem_of_fmap_2.
  - apply Hr. rewrite <- Heq. by apply list_elem_of_fmap_2.
Qed.

Lemma slot_card_placed st i c :
  array_get i (slots st) = Some c -> c ∈ slot_cards st.
Proof.
  intros [Hl _]%array_get_Some. unfold slot_cards.
  apply list_elem_of_omap. exists (Some c). split; [| done].
  by eapply list_elem_of_lookup_2.
Qed.

End Drops.

(** ** Drops conserve the cards, except a drop on the origin slot *)

Section Conservation.
Implicit Types (sl : list (option SequenceEvent)) (c : SequenceEvent).

Local Abbreviation cards := (omap (fun s : option SequenceEvent => s)).

Lemma cards_insert sl k o :
  k < length sl ->
  cards (<[k := o]> sl) ≡ₚ option_list o ++ cards (<[k := None]> sl).
Proof.
  revert k. induction sl as [| s sl IH]; intros k Hk; simpl in Hk; [lia |].
  destruct k as [| k]; simpl.
  - by destruct o.
  - destruct s as [x |]; simpl.
    + rewrite IH by lia. apply Permutation_middle.
    + apply IH. lia.
Qed.

Lemma cards_lookup sl k o :
  sl !! k = Some o -> cards sl ≡ₚ option_list o ++ cards (<[k := None]> sl).
Proof.
  intros Hk. rewrite <- (list_insert_id sl k o Hk) at 1.
  apply cards_insert. by eapply lookup_lt_Some.
Qed.

Lemma drop_on_slot_conserves (st : BoardState) (d : DraggedItem) (k : nat) :
  draggedItem st = Some d ->
  drag_consistent st d ->
  k < length (slots st) ->
  (source d = FromSlot -> index d <> k) ->
  placed (handleDropOnSlot k st) ≡ₚ placed st.
Proof.
  intros Hd Hcons Hk Hne. unfold handleDropOnSlot, placed, slot_cards.
  rewrite Hd.
  destruct (lookup_lt_is_Some_2 _ _ Hk) as [o Ho].
  assert (array_get k (slots st) = o) as -> by (unfold array_get; by rewrite Ho).
  unfold drag_consistent in Hcons. destruct (source d) eqn:Es; simpl.
  - rewrite array_set_inside by done.
    rewrite (cards_insert _ k (Some (item d))) by done.
    symmetry. etrans.
    { apply Permutation_app;
        [apply (cards_lookup _ k o Ho) | apply (delete_Permutation _ _ _ Hcons)]. }
    unfold splice1, push. destruct o as [a |]; simpl.
    + rewrite <- Permutation_middle, app_assoc, <- Permutation_cons_append.
      apply Permutation_swap.
    + by rewrite <- Permutation_middle.
  - specialize (Hne eq_refl).
    assert (index d < length (slots st)) as Hi by (by eapply lookup_lt_Some).
    rewrite (array_set_inside (index d)) by done.
    rewrite array_set_inside by (by rewrite length_insert).
    rewrite (cards_insert _ k (Some (item d))) by (by rewrite length_insert).
    assert (<[index d := None]> (slots st) !! k = Some o) as Ho'.
    { by rewrite list_lookup_insert_ne. }
    symmetry. etrans.
    { apply Permutation_app; [apply (cards_lookup _ _ _ Hcons) | done]. }
    simpl. apply Permutation_skip.
    rewrite (cards_lookup _ k o Ho') at 1.
    unfold push. destruct o as [a |]; simpl; [| done].
    by rewrite app_assoc, <- Permutation_cons_append.
Qed.

Lemma drop_on_pool_conserves (st : BoardState) (d : DraggedItem) :
  draggedItem st = Some d ->
  drag_consistent st d ->
  placed (handleDropOnPool st) ≡ₚ placed st.
Proof.
  intros Hd Hcons. unfold handleDropOnPool, placed, slot_cards.
  rewrite Hd.
  unfold drag_consistent in Hcons. destruct (source d) eqn:Es; simpl; [done |].
  assert (index d < length (slots st)) as Hi by (by eapply lookup_lt_Some).
  rewrite array_set_inside by done.
  rewrite (cards_lookup (slots st) _ _ Hcons). unfold push. simpl.
  by rewrite app_assoc, <- Permutation_cons_append.
Qed.

(** So a drop that follows the [dragstart] of a rendered card, on a slot
    other than the card's own, keeps every source card in one place. *)
Corollary fresh_drop_keeps_board_ok (events : list SequenceEvent)
    (st : BoardState) (d : DraggedItem) (k : nat) :
  board_ok events st ->
  draggedItem st = Some d ->
  drag_consistent st d ->
  k < length (slots st) ->
  (source d = FromSlot -> index d <> k) ->
  board_ok events (handleDropOnSlot k st) /\
  board_ok events (handleDropOnPool st).
Proof.
  intros Hok Hd Hcons Hk Hne. split; intros c Hc; unfold occurrences.
  - rewrite (count_id_perm _ _ _ (drop_on_slot_conserves st d k Hd Hcons Hk Hne)).
    by apply Hok.
  - rewrite (count_id_perm _ _ _ (drop_on_pool_conserves st d Hd Hcons)).
    by apply Hok.
Qed.

(** The drop on the origin slot adds one more reference to the card. *)
Lemma drop_on_origin_adds (st : BoardState) (i : nat) (c : SequenceEvent) :
  array_get i (slots st) = Some c ->
  placed (handleDropOnSlot i (handleDragStart c FromSlot i st)) ≡ₚ c :: placed st.
Proof.
  intros Hc. rewrite drop_on_origin_slot by done. unfold placed, slot_cards. simpl.
  by rewrite app_assoc, <- Permutation_cons_append.
Qed.

End Conservation.

(** With Card A in slot 0 and Card B at position [j] of the pool: dragging
    B from the pool and dropping it on slot 0 leaves B in slot 0, the pool
    is the old pool without position [j] followed by A at its end, and the
    drag is cleared; on a board where no card shows in two places, no pool
    entry is B any more. *)
Lemma swap_from_pool (st : BoardState) (a b : SequenceEvent) (j : nat) :
  array_get 0 (slots st) = Some a ->
  pool st !! j = Some b ->
  let st' := handleDropOnSlot 0 (handleDragStart b FromPool j st) in
  array_get 0 (slots st') = Some b /\
  pool st' = delete j (pool st) ++ [a] /\
  draggedItem st' = None /\
  (NoDup (id <$> placed st) -> forall c, c ∈ pool st' -> id c <> id b).
Proof.
  intros Ha Hb st'. subst st'.
  unfold handleDropOnSlot, handleDragStart. simpl. rewrite Ha. simpl.
  split; [apply array_get_set |]. split; [done |]. split; [done |].
  intros Hnd. unfold placed in Hnd. rewrite fmap_app in Hnd.
  apply NoDup_app in Hnd as (_ & Hsep & Hpool).
  intros c [Hc | Hc]%elem_of_app.
  - by eapply ids_apart_delete.
  - apply list_elem_of_singleton in Hc as ->. intros Heq.
    apply (Hsep (id a)).
    + apply list_elem_of_fmap_2. by eapply slot_card_placed.
    + rewrite Heq. apply list_elem_of_fmap_2. by eapply list_elem_of_lookup_2.
Qed.

Lemma swap_from_pool_witness :
  let st' := handleDropOnSlot 0 (handleDragStart E2 FromPool 1 swap_board) in
  array_get 0 (slots st') = Some E2 /\
  pool st' = [E3; E4; E1] /\
  draggedItem st' = None /\
  forall c, c ∈ pool st' -> id c <> id E2.
Proof.
  destruct (swap_from_pool swap_board E1 E2 1) as (H1 & H2 & H3 & H4).
  - reflexivity.
  - reflexivity.
  - split; [exact H1 |]. split; [exact H2 |]. split; [exact H3 |].
    apply H4. apply (bool_decide_unpack _). vm_compute. exact I.
Defined.

(** Gestures are made of the steps the rendered board offers, so the
    boards they reach are reachable. *)
Lemma gesture_reachable (events : list SequenceEvent) (g : gesture)
    (st : BoardState) :
  gesture_ok events g ->
  reachable events st -> reachable events (perform_gesture events g st).
Proof.
  intros Hok Hreach.
  destruct g as [j k | i k | i | j | shuffle]; simpl in *.
  - unfold drag_from_pool. destruct (pool st !! j) as [c |] eqn:Hj; [| done].
    exact (reach_step _ _ _
             (reach_step _ _ _ Hreach (ui_drag_pool events st j c Hj))
             (ui_drop_slot events _ k Hok)).
  - destruct Hok as [Hi Hk]. unfold drag_from_slot.
    destruct (array_get i (slots st)) as [c |] eqn:Hc; [| done].
    exact (reach_step _ _ _
             (reach_step _ _ _ Hreach (ui_drag_slot events st i c Hi Hc))
             (ui_drop_slot events _ k Hk)).
  - unfold drag_from_slot.
    destruct (array_get i (slots st)) as [c |] eqn:Hc; [| done].
    exact (reach_step _ _ _
             (reach_step _ _ _ Hreach (ui_drag_slot events st i c Hok Hc))
             (ui_drop_pool events _)).
  - unfold drag_from_pool. destruct (pool st !! j) as [c |] eqn:Hj; [| done].
    exact (reach_step _ _ _
             (reach_step _ _ _ Hreach (ui_drag_pool events st j c Hj))
             (ui_drop_pool events _)).
  - exact (reach_step _ _ _ Hreach (ui_reset events st shuffle Hok)).
Qed.

Lemma play_reachable (events : list SequenceEvent) (first : Shuffle)
    (gs : list gesture) :
  first events ≡ₚ events ->
  Forall (gesture_ok events) gs ->
  reachable events (play events first gs).
Proof.
  intros Hfirst Hgs. unfold play.
  assert (reachable events (initialize first events mount)) as Hinit
    by by apply reach_init.
  revert Hinit. generalize (initialize first events mount).
  induction Hgs as [| g gs Hg _ IH]; intros st Hst; [done |].
  simpl. apply IH. by apply gesture_reachable.
Qed.

(** C3. On a board reached by the moves the rendered board offers, with
    the second card in slot 0 and the first card in the pool: dragging the
    first card from the pool and dropping it on slot 0 puts it in slot 0
    and the second card at the end of the pool, but the pool still
    contains the first card. *)
Theorem swap_leaves_card_in_pool :
  reachable sample_events doubled_board /\
  draggedItem doubled_board = None /\
  array_get 0 (slots doubled_board) = Some E2 /\
  pool doubled_board = [E3; E4; E1; E1] /\
  let st' := handleDropOnSlot 0 (handleDragStart E1 FromPool 2 doubled_board) in
  array_get 0 (slots st') = Some E1 /\
  pool st' = [E3; E4; E1; E2] /\
  E1 ∈ pool st'.
Proof.
  split.
  { apply play_reachable; [apply insertion_shuffle_perm |].
    repeat (apply Forall_cons_2 || apply Forall_nil_2); simpl; lia. }
  split; [done |]. split; [done |]. split; [done |]. simpl.
  split; [done |]. split; [done |].
  apply (list_elem_of_lookup_2 _ 2). reflexivity.
Qed.

(** C2. Dragging the card of slot 0 and dropping it on slot 0 does not leave
    the board as it was: the card stays in slot 0 and is also appended to
    the pool. *)
Theorem self_drop_duplicates_card :
  handleDropOnSlot 0 (handleDragStart E1 FromSlot 0 placed_board)
  = {| slots := [Some E1; None; None; None]; pool := [E2; E3; E4; E1];
       draggedItem := None |}.
Proof. reflexivity. Qed.

(** C1. A board reached from the initial shuffle by the moves the rendered
    board offers (pool card to slot 0, then that card from slot 0 onto
    slot 0), with no drag in flight, shows the first card in two places. *)
Theorem self_drop_breaks_placement :
  let st :=
    handleDropOnSlot 0 (handleDragStart E1 FromSlot 0
      (handleDropOnSlot 0 (handleDragStart E1 FromPool 0 fresh_board))) in
  reachable sample_events st /\
  draggedItem st = None /\
  slots st = [Some E1; None; None; None] /\
  pool st = [E2; E3; E4; E1] /\
  occurrences (id E1) st = 2 /\
  ~ board_ok sample_events st.
Proof.
  intros st. split; [| split; [done | split; [done | split; [done | split; [done |]]]]].
  - pose proof (reach_init sample_events (insertion_shuffle [])
                  (insertion_shuffle_perm _ _)) as H0.
    pose proof (reach_step _ _ _ H0
                  (ui_drag_pool sample_events fresh_board 0 E1 eq_refl)) as H1.
    pose proof (reach_step _ _ _ H1
                  (ui_drop_slot sample_events _ 0 ltac:(lia))) as H2.
    pose proof (reach_step _ _ _ H2
                  (ui_drag_slot sample_events
                     (handleDropOnSlot 0 (handleDragStart E1 FromPool 0 fresh_board))
                     0 E1 ltac:(lia) eq_refl)) as H3.
    exact (reach_step _ _ _ H3 (ui_drop_slot sample_events _ 0 ltac:(lia))).
  - intros Hok. specialize (Hok E1). cbv beta in Hok.
    assert (occurrences (id E1) st = 2) as Htwo by done.
    rewrite Htwo in Hok. discriminate Hok. by left.
Qed.

(** A drag that is still recorded when the pool is reshuffled is dropped by
    position: the card now at the recorded position leaves the pool and the
    recorded card enters the slot, so one card shows twice and one is gone. *)
Remark stale_drag_breaks_placement :
  let st :=
    handleDropOnSlot 0
      (handleReset (insertion_shuffle [true; true; false]) sample_events
         (handleDragStart E1 FromPool 0 fresh_board)) in
  reachable sample_events st /\
  draggedItem st = None /\
  occurrences (id E1) st = 2 /\
  occurrences (id E2) st = 0.
Proof.
  intros st. split; [| done].
  pose proof (reach_init sample_events (insertion_shuffle [])
                (insertion_shuffle_perm _ _)) as H0.
  pose proof (reach_step _ _ _ H0
                (ui_drag_pool sample_events fresh_board 0 E1 eq_refl)) as H1.
  pose proof (reach_step _ _ _ H1
                (ui_reset sample_events _ (insertion_shuffle [true; true; false])
                   (insertion_shuffle_perm _ _))) as H2.
  exact (reach_step _ _ _ H2 (ui_drop_slot sample_events _ 0 ltac:(lia))).
Qed.

(** C4. A drop on the pool of a drag that started in the pool returns before
    the drag is cleared: slots and pool are as before, and so is the
    recorded drag. *)
Theorem pool_to_pool_keeps_drag (sl : list (option SequenceEvent))
    (pl : list SequenceEvent) (it : SequenceEvent) (i : nat) :
  let st := {| slots := sl; pool := pl;
               draggedItem := Some {| item := it; source := FromPool; index := i |} |} in
  handleDropOnPool st = st /\
  draggedItem (handleDropOnPool st)
  = Some {| item := it; source := FromPool; index := i |}.
Proof. done. Qed.




(** C9. Whatever the board, a reset (and a second reset after it) leaves
    all four slots empty and the pool a rearrangement of the source cards,
    so that every source card shows in exactly one place; the engine's sort
    is taken to rearrange its input, and the source cards to have distinct
    identifiers. *)
Theorem reset_restores_board (events : list SequenceEvent)
    (shuffle1 shuffle2 : Shuffle) (st : BoardState) :
  NoDup (id <$> events) ->
  shuffle1 events ≡ₚ events ->
  shuffle2 events ≡ₚ events ->
  let st1 := handleReset shuffle1 events st in
  let st2 := handleReset shuffle2 events st1 in
  (slots st1 = [None; None; None; None] /\ pool st1 ≡ₚ events /\
   board_ok events st1) /\
  (slots st2 = [None; None; None; None] /\ pool st2 ≡ₚ events /\
   board_ok events st2).
Proof.
  intros Hnd H1 H2 st1 st2.
  assert (forall (sh : Shuffle) s, sh events ≡ₚ events ->
            board_ok events (handleReset sh events s)) as Hok.
  { intros sh s Hsh c Hc. unfold occurrences, placed. simpl.
    rewrite (count_id_perm _ _ _ Hsh). by apply count_id_unique. }
  repeat split; try done; by apply Hok.
Qed.

Lemma reset_restores_board_witness :
  let st1 := handleReset (insertion_shuffle [false; true]) sample_events placed_board in
  let st2 := handleReset (insertion_shuffle [false; false; true]) sample_events st1 in
  (slots st1 = [None; None; None; None] /\ pool st1 ≡ₚ sample_events /\
   board_ok sample_events st1) /\
  (slots st2 = [None; None; None; None] /\ pool st2 ≡ₚ sample_events /\
   board_ok sample_events st2).
Proof.
  apply (reset_restores_board sample_events (insertion_shuffle [false; true])
           (insertion_shuffle [false; false; true]) placed_board).
  - apply (bool_decide_unpack _). vm_compute. exact I.
  - apply insertion_shuffle_perm.
  - apply insertion_shuffle_perm.
Defined.

(** C10. Neither the reset nor the shuffling effect touches the recorded
    drag; a drag recorded before a reset can therefore still be dropped on
    a slot of the reset board, which places the recorded card there. *)
Theorem reset_keeps_drag (shuffle : Shuffle) (events : list SequenceEvent)
    (st : BoardState) :
  draggedItem (handleReset shuffle events st) = draggedItem st /\
  draggedItem (initialize shuffle events st) = draggedItem st /\
  forall d k,
    draggedItem st = Some d -> k < 4 ->
    let st' := handleDropOnSlot k (handleReset shuffle events st) in
    array_get k (slots st') = Some (item d) /\ draggedItem st' = None.
Proof.
  split; [done | split; [done |]].
  intros d k Hd Hk st'. subst st'. unfold handleDropOnSlot. simpl. rewrite Hd.
  destruct (source d), (array_get k empty_slots); simpl;
    by rewrite array_get_set.
Qed.

Lemma reset_keeps_drag_witness :
  let st := handleDragStart E1 FromPool 0 fresh_board in
  let st' := handleDropOnSlot 2 (handleReset (insertion_shuffle [false]) sample_events st) in
  draggedItem (handleReset (insertion_shuffle [false]) sample_events st)
  = Some {| item := E1; source := FromPool; index := 0 |} /\
  array_get 2 (slots st') = Some E1 /\ draggedItem st' = None.
Proof.
  pose proof (reset_keeps_drag (insertion_shuffle [false]) sample_events
                (handleDragStart E1 FromPool 0 fresh_board)) as (H1 & _ & H3).
  split; [exact H1 |].
  apply (H3 {| item := E1; source := FromPool; index := 0 |} 2).
  - reflexivity.
  - lia.
Defined.

(** * Properties of the generation pipeline *)

Section Objects.
Implicit Types (k : string) (v : value) (ps : list (string * value)).

Lemma lookup_set_prop k k' v ps :
  lookup_prop k (set_prop k' v ps)
  = if String.eqb k k' then v else lookup_prop k ps.
Proof.
  induction ps as [| [k0 v0] ps IH]; simpl.
  - by destruct (String.eqb k k').
  - destruct (String.eqb k' k0) eqn:E0; simpl.
    + apply String.eqb_eq in E0 as <-. by destruct (String.eqb k k').
    + destruct (String.eqb k k0) eqn:E1; [| done].
      apply String.eqb_eq in E1 as <-.
      by rewrite String.eqb_sym, E0.
Qed.

Lemma lookup_set_prop_eq k v ps : lookup_prop k (set_prop k v ps) = v.
Proof. by rewrite lookup_set_prop, String.eqb_refl. Qed.

Lemma lookup_set_prop_ne k k' v ps :
  String.eqb k k' = false -> lookup_prop k (set_prop k' v ps) = lookup_prop k ps.
Proof. intros E. by rewrite lookup_set_prop, E. Qed.

End Objects.

(** ** The illustration loop never throws *)

Section Loop.
Variable w : World.
Variable initialData : value.

Lemma illustrate_card_run i event updated st :
  exists st',
    illustrate_card w initialData i event updated st
    = (Ok (updated ++ [illustrated w initialData i event]), st') /\
    same_content st st'.
Proof.
  unfold illustrate_card, illustrated, card_request, bind, try_catch, send,
    lift, perform, setStatusMessage, ret, push. simpl.
  destruct (get_prop initialData "visualStyle") as [vs | e1]; simpl;
    [| by eexists].
  destruct (ToString vs) as [? | e1']; simpl; [| by eexists].
  destruct (get_prop event "imagePrompt") as [ip | e2]; simpl;
    [| by eexists].
  destruct (ToString ip) as [? | e2']; simpl; [| by eexists].
  destruct (generateContent w (CardImageRequest i vs ip)) as [r | e3]; simpl;
    by eexists.
Qed.

Lemma illustrate_cards_run events : forall i updated st,
  exists st',
    illustrate_cards w initialData i events updated st
    = (Ok (updated ++ imap (fun j e => illustrated w initialData (i + j) e) events), st') /\
    same_content st st'.
Proof.
  induction events as [| event rest IH]; intros i updated st.
  - exists st. simpl. unfold ret. by rewrite app_nil_r.
  - simpl. unfold bind at 1.
    destruct (illustrate_card_run i event updated st) as (st1 & -> & Hl1 & Ht1).
    destruct (IH (S i) (updated ++ [illustrated w initialData i event]) st1)
      as (st2 & -> & Hl2 & Ht2).
    exists st2. split.
    + f_equal. f_equal. rewrite <- app_assoc. simpl. f_equal.
      rewrite Nat.add_0_r. f_equal. apply imap_ext. intros j e _. simpl.
      f_equal. lia.
    + split; congruence.
Qed.

End Loop.

(** ** Runs of [handleGenerate] *)

Lemma imap_compose {A B C} (g : nat -> B -> C) (f : nat -> A -> B) (l : list A) :
  imap g (imap f l) = imap (fun i x => g i (f i x)) l.
Proof.
  revert f g. induction l as [| x l IH]; intros f g; [done |].
  simpl. f_equal. apply IH.
Qed.

Lemma content_with_ids_events w childName ps evs :
  lookup_prop "sequenceEvents" (content_with_ids w childName ps evs)
  = VArr (imap (fun idx e => with_id w e idx) evs).
Proof.
  unfold content_with_ids.
  rewrite lookup_set_prop_ne by done. apply lookup_set_prop_eq.
Qed.

Ltac run_monad :=
  unfold handleGenerate, generate, try_finally, try_catch, bind, lift, send,
    perform, setToolkitData, setStatusMessage, setLoading, ret, throw;
  simpl.

Section Runs.
Variable w : World.
Variables topic childName difficulty : string.

Let theRequest : request := contentRequest topic childName difficulty.

(** A payload with an array of events is published, whatever else it holds,
    and the run ends normally with [final_content] on display. *)
Lemma run_accepts st u resp txt ps evs :
  newGoogleGenAI w = Ok u ->
  generateContent w theRequest = Ok resp ->
  truthy (GenAI.text resp) = Some txt ->
  JSON_parse w txt = Ok (VObj ps) ->
  lookup_prop "sequenceEvents" ps = VArr evs ->
  exists st',
    handleGenerate w topic childName difficulty st = (Ok tt, st') /\
    loading st' = false /\
    toolkitData st' = Some (VObj (final_content w childName ps evs)).
Proof.
  intros Hc Hr Ht Hp He. unfold final_content, story_phase, storyImageRequest.
  run_monad.
  rewrite Hc. fold theRequest. rewrite Hr, Ht, Hp. simpl. rewrite He. simpl.
  fold (content_with_ids w childName ps evs).
  destruct (ToString (lookup_prop "title" ps)) as [? | e0]; [| by eexists].
  destruct (ToString (lookup_prop "visualStyle" ps)) as [? | e0']; [| by eexists].
  destruct (substring_0_150 (lookup_prop "storyText" ps)) as [excerpt | e1];
    [| by eexists].
  destruct (generateContent w (StoryImageRequest _ _ excerpt)) as [hero | e2];
    [| by eexists].
  rewrite lookup_set_prop_ne by done. rewrite content_with_ids_events. simpl.
  match goal with
  | |- context [illustrate_cards ?w0 ?d ?i ?l ?upd ?s] =>
    destruct (illustrate_cards_run w0 d l i upd s) as (st2 & -> & Hl & Htk)
  end.
  eexists. split; [done |]. split; [done |]. simpl.
  by rewrite imap_compose.
Qed.

Lemma run_rejects_no_text st u resp :
  newGoogleGenAI w = Ok u ->
  generateContent w theRequest = Ok resp ->
  truthy (GenAI.text resp) = None ->
  exists st',
    handleGenerate w topic childName difficulty st = (Ok tt, st') /\
    loading st' = false /\ toolkitData st' = None /\
    trace st' = trace st ++ rejected_trace topic childName difficulty (Error "No text generated").
Proof.
  intros Hc Hr Ht. run_monad. rewrite Hc. fold theRequest. rewrite Hr, Ht.
  simpl. eexists. repeat split. simpl. by rewrite <- !app_assoc.
Qed.


End Runs.

(** ** Facts about prompts, images and events *)

Lemma with_id_prop w e idx k :
  String.eqb k "id" = false ->
  get_prop (with_id w e idx) k = Ok (lookup_prop k (spread e)).
Proof. intros Hk. unfold with_id. simpl. by rewrite lookup_set_prop_ne. Qed.

Lemma card_request_stamped w ps i e :
  card_request (VObj ps) i (with_id w e i) = cardImageRequest ps i e.
Proof.
  unfold card_request, cardImageRequest, ToString. rewrite with_id_prop by done.
  simpl. destruct (stringifies (lookup_prop "visualStyle" ps)); [| done].
  by destruct (stringifies (lookup_prop "imagePrompt" (spread e))).
Qed.

Lemma illustrated_stamped w ps i e :
  illustrated w (VObj ps) i (with_id w e i)
  = match card_phase w ps i e with
    | Throw _ => with_id w e i
    | Ok r => VObj (set_prop "imageUrl" (optional (extractImage r))
                      (spread (with_id w e i)))
    end.
Proof.
  unfold illustrated, card_phase. rewrite card_request_stamped.
  by destruct (cardImageRequest ps i e).
Qed.

Section Images.
Implicit Types (p : GenAI.Part) (ps : list GenAI.Part) (r : GenAI.Response).

Lemma first_image_head ps : first_image ps = head (omap part_image ps).
Proof.
  induction ps as [| p ps IH]; [done |]. simpl.
  by destruct (part_image p).
Qed.

Lemma head_app {A} (l1 l2 : list A) :
  head (l1 ++ l2) = match head l1 with Some x => Some x | None => head l2 end.
Proof. by destruct l1. Qed.

Lemma extractImage_head r :
  extractImage r = head (omap part_image (all_parts r)).
Proof.
  unfold extractImage, all_parts.
  induction (default [] (GenAI.candidates r)) as [| c cs IH]; [done |].
  simpl. rewrite omap_app, head_app, <- first_image_head, IH.
  by destruct (first_image (candidate_parts c)).
Qed.

Lemma truthy_Some o s : truthy o = Some s -> o = Some s /\ s <> EmptyString.
Proof.
  destruct o as [t |]; simpl; [| done].
  destruct (String.eqb t EmptyString) eqn:E; [done |].
  intros [= ->]. split; [done |]. by apply String.eqb_neq.
Qed.

Lemma part_image_without_data p : has_data p = false -> part_image p = None.
Proof.
  unfold has_data, part_image, truthy.
  destruct (GenAI.inlineData p) as [d |]; [| done].
  destruct (GenAI.data d) as [payload |]; [| done].
  by destruct (String.eqb payload EmptyString).
Qed.

Lemma part_image_with_data p d payload :
  GenAI.inlineData p = Some d ->
  GenAI.data d = Some payload ->
  payload <> EmptyString ->
  part_image p = Some (data_uri d payload).
Proof.
  intros Hd Hp Hne. unfold part_image, data_uri, truthy. rewrite Hd, Hp.
  apply String.eqb_neq in Hne. rewrite Hne.
  destruct (GenAI.mimeType d) as [m |]; [| done].
  by destruct (String.eqb m EmptyString).
Qed.

Lemma omap_without_data ps :
  Forall (fun q => has_data q = false) ps -> omap part_image ps = [].
Proof.
  induction 1 as [| q ps Hq _ IH]; [done |]. simpl.
  by rewrite (part_image_without_data q Hq).
Qed.

Lemma extractImage_found r before p after d payload :
  all_parts r = before ++ p :: after ->
  Forall (fun q => has_data q = false) before ->
  GenAI.inlineData p = Some d ->
  GenAI.data d = Some payload ->
  payload <> EmptyString ->
  extractImage r = Some (data_uri d payload).
Proof.
  intros Hparts Hbefore Hd Hp Hne.
  rewrite extractImage_head, Hparts, omap_app, (omap_without_data _ Hbefore).
  simpl. by rewrite (part_image_with_data p d payload).
Qed.

Lemma extractImage_none r :
  Forall (fun q => has_data q = false) (all_parts r) -> extractImage r = None.
Proof.
  intros Hnone. by rewrite extractImage_head, (omap_without_data _ Hnone).
Qed.

End Images.

(** ** The trace of the illustration loop *)

Section LoopTrace.
Variable w : World.
Variable initialData : value.

Lemma illustrate_card_trace i event updated st :
  exists st',
    illustrate_card w initialData i event updated st
    = (Ok (updated ++ [illustrated w initialData i event]), st') /\
    same_content st st' /\
    trace st' = trace st ++ card_effects w initialData i event.
Proof.
  unfold illustrate_card, illustrated, card_effects, card_request, bind,
    try_catch, send, lift, perform, setStatusMessage, ret, push. simpl.
  destruct (get_prop initialData "visualStyle") as [vs | e1]; simpl;
    [| by eexists].
  destruct (ToString vs) as [? | e1']; simpl; [| by eexists].
  destruct (get_prop event "imagePrompt") as [ip | e2]; simpl;
    [| by eexists].
  destruct (ToString ip) as [? | e2']; simpl; [| by eexists].
  destruct (generateContent w (CardImageRequest i vs ip)) as [r | e3]; simpl.
  - by eexists.
  - eexists. split; [done |]. split; [done |]. simpl. by rewrite <- app_assoc.
Qed.

Lemma illustrate_cards_trace events : forall i updated st,
  exists st',
    illustrate_cards w initialData i events updated st
    = (Ok (updated ++ imap (fun j e => illustrated w initialData (i + j) e) events), st') /\
    same_content st st' /\
    trace st' = trace st ++
                concat (imap (fun j e => card_effects w initialData (i + j) e) events).
Proof.
  induction events as [| event rest IH]; intros i updated st.
  - exists st. simpl. unfold ret. by rewrite !app_nil_r.
  - simpl. unfold bind at 1.
    destruct (illustrate_card_trace i event updated st)
      as (st1 & -> & [Hl1 Ht1] & Htr1).
    destruct (IH (S i) (updated ++ [illustrated w initialData i event]) st1)
      as (st2 & -> & [Hl2 Ht2] & Htr2).
    exists st2. split; [| split; [split; congruence |]].
    + f_equal. f_equal. rewrite <- app_assoc. simpl. f_equal.
      rewrite Nat.add_0_r. f_equal. apply imap_ext. intros j e _. simpl.
      f_equal. lia.
    + rewrite Htr2, Htr1, <- app_assoc, Nat.add_0_r. f_equal. f_equal. f_equal.
      apply imap_ext. intros j e _. simpl. f_equal. lia.
Qed.

End LoopTrace.

Lemma omap_concat_imap {A B C} (p : B -> option C) (f : nat -> A -> list B)
    (g : nat -> A -> list C) (l : list A) :
  (forall j e, omap p (f j e) = g j e) ->
  omap p (concat (imap f l)) = concat (imap g l).
Proof.
  revert f g. induction l as [| x l IH]; intros f g Hfg; [done |].
  simpl. rewrite omap_app, Hfg. f_equal. apply IH. intros j e. apply Hfg.
Qed.

Lemma concat_imap_nil {A B} (l : list A) :
  concat (imap (fun _ _ => @nil B) l) = [].
Proof. induction l as [| x l IH]; [done |]. simpl. apply IH. Qed.

Lemma existsb_concat_imap {A B} (p : B -> bool) (f : nat -> A -> list B)
    (l : list A) :
  (forall j e, existsb p (f j e) = false) ->
  existsb p (concat (imap f l)) = false.
Proof.
  revert f. induction l as [| x l IH]; intros f Hf; [done |].
  simpl. rewrite existsb_app, Hf. simpl. apply IH. intros j e. apply Hf.
Qed.

Lemma card_effects_stamped w ps i e :
  requests_of (card_effects w (VObj ps) i (with_id w e i))
  = match cardImageRequest ps i e with Ok r => [r] | Throw _ => [] end /\
  publications_of (card_effects w (VObj ps) i (with_id w e i)) = [] /\
  has_alert (card_effects w (VObj ps) i (with_id w e i)) = false.
Proof.
  unfold card_effects. rewrite card_request_stamped.
  destruct (cardImageRequest ps i e) as [r | err]; [| done]. simpl.
  by destruct (generateContent w r).
Qed.

(** ** Event identifiers *)

Section Identifiers.

Local Open Scope string_scope.

Lemma dash_in_append s d : In dash (list_ascii_of_string (s ++ String dash d)).
Proof. induction s as [| a s IH]; simpl; [by left | by right]. Qed.

(** The text after the last dash determines the whole suffix. *)
Lemma append_dash_inj s1 s2 d1 d2 :
  ~ In dash (list_ascii_of_string d1) ->
  ~ In dash (list_ascii_of_string d2) ->
  s1 ++ String dash d1 = s2 ++ String dash d2 ->
  d1 = d2.
Proof.
  intros H1 H2. revert s2.
  induction s1 as [| a s1 IH]; intros [| b s2]; simpl; intros Heq.
  - by injection Heq.
  - injection Heq as _ ->. destruct H1. apply dash_in_append.
  - injection Heq as _ <-. destruct H2. apply dash_in_append.
  - injection Heq as _ Heq. by eapply IH.
Qed.

Lemma show_nat_no_dash n : ~ In dash (list_ascii_of_string (show_nat n)).
Proof.
  unfold show_nat. induction (Nat.to_uint n) as [| d IH | d IH | d IH | d IH | d IH
                                                 | d IH | d IH | d IH | d IH | d IH];
    simpl; [tauto | ..]; intros [Hd | Hd]; try discriminate Hd; by apply IH.
Qed.

Lemma show_nat_inj n m : show_nat n = show_nat m -> n = m.
Proof.
  unfold show_nat. intros Heq.
  assert (Nat.to_uint n = Nat.to_uint m) as Hu.
  { apply (f_equal NilEmpty.uint_of_string) in Heq.
    rewrite !NilEmpty.usu in Heq. by injection Heq. }
  apply (f_equal Nat.of_uint) in Hu. by rewrite !DecimalNat.Unsigned.of_to in Hu.
Qed.

Lemma event_id_inj w i j : event_id w i = event_id w j -> i = j.
Proof.
  unfold event_id. intros Heq. simpl in Heq. injection Heq as Heq.
  apply show_nat_inj. eapply append_dash_inj; [| | exact Heq];
    apply show_nat_no_dash.
Qed.

End Identifiers.

(** ** The content on display *)

Section Displayed.
Variable w : World.
Variable childName : string.
Variable ps : list (string * value).
Variable evs : list value.

Lemma illustrated_event i e :
  exists event,
    illustrated w (VObj ps) i (with_id w e i) = VObj event /\
    lookup_prop "id" event = VStr (event_id w i) /\
    forall k, String.eqb k "id" = false -> String.eqb k "imageUrl" = false ->
              lookup_prop k event = lookup_prop k (spread e).
Proof.
  rewrite illustrated_stamped.
  destruct (card_phase w ps i e) as [r | err]; eexists; (split; [done |]).
  - split.
    + rewrite lookup_set_prop_ne by done. apply lookup_set_prop_eq.
    + intros k Hid Himg. simpl. by rewrite !lookup_set_prop_ne.
  - split; [apply lookup_set_prop_eq |].
    intros k Hid Himg. by rewrite lookup_set_prop_ne.
Qed.

Lemma stamped_event i e :
  exists event,
    with_id w e i = VObj event /\
    lookup_prop "id" event = VStr (event_id w i) /\
    forall k, String.eqb k "id" = false -> String.eqb k "imageUrl" = false ->
              lookup_prop k event = lookup_prop k (spread e).
Proof.
  eexists. split; [done |]. split; [apply lookup_set_prop_eq |].
  intros k Hid _. by rewrite lookup_set_prop_ne.
Qed.

Lemma final_events_shape :
  exists updated,
    lookup_prop "sequenceEvents" (final_content w childName ps evs) = VArr updated /\
    length updated = length evs /\
    forall i e, evs !! i = Some e ->
      exists event,
        updated !! i = Some (VObj event) /\
        lookup_prop "id" event = VStr (event_id w i) /\
        forall k, String.eqb k "id" = false -> String.eqb k "imageUrl" = false ->
                  lookup_prop k event = lookup_prop k (spread e).
Proof.
  unfold final_content. destruct (story_phase w ps) as [hero | err].
  - eexists. rewrite lookup_set_prop_eq. split; [done |].
    split; [by rewrite length_imap |]. intros i e Hi.
    rewrite list_lookup_imap, Hi. simpl.
    destruct (illustrated_event i e) as (event & -> & Hid & Hk). by exists event.
  - eexists. rewrite content_with_ids_events. split; [done |].
    split; [by rewrite length_imap |]. intros i e Hi.
    rewrite list_lookup_imap, Hi. simpl.
    destruct (stamped_event i e) as (event & -> & Hid & Hk). by exists event.
Qed.


End Displayed.

(** ** The two ends of the story-image phase *)

Section Phases.
Variable w : World.
Variables topic childName difficulty : string.

Let theRequest : request := contentRequest topic childName difficulty.

(** The story image arrives: the loop runs and the run ends normally. *)
Lemma run_illustrated st u resp hero txt ps evs heroRequest :
  newGoogleGenAI w = Ok u ->
  generateContent w theRequest = Ok resp ->
  truthy (GenAI.text resp) = Some txt ->
  JSON_parse w txt = Ok (VObj ps) ->
  lookup_prop "sequenceEvents" ps = VArr evs ->
  storyImageRequest ps = Ok heroRequest ->
  generateContent w heroRequest = Ok hero ->
  exists st' new,
    handleGenerate w topic childName difficulty st = (Ok tt, st') /\
    toolkitData st' = Some (VObj (final_content w childName ps evs)) /\
    trace st' = trace st ++ new /\
    requests_of new
    = theRequest :: heroRequest ::
      concat (imap (fun i e => match cardImageRequest ps i e with
                               | Ok r => [r]
                               | Throw _ => []
                               end) evs) /\
    publications_of new
    = [None;
       Some (VObj (content_with_ids w childName ps evs));
       Some (VObj (set_prop "storyImageUrl" (optional (extractImage hero))
                     (content_with_ids w childName ps evs)));
       Some (VObj (final_content w childName ps evs))] /\
    has_alert new = false.
Proof.
  intros Hc Hr Ht Hp He Hs Hh.
  assert (story_phase w ps = Ok hero) as Hphase.
  { unfold story_phase. by rewrite Hs. }
  unfold final_content. rewrite Hphase. unfold storyImageRequest in Hs.
  destruct (ToString (lookup_prop "title" ps)) as [[] | e0] eqn:Ht1; [| done].
  destruct (ToString (lookup_prop "visualStyle" ps)) as [[] | e0'] eqn:Ht2; [| done].
  destruct (substring_0_150 (lookup_prop "storyText" ps)) as [excerpt | e1] eqn:Hsub;
    [| done].
  injection Hs as <-.
  run_monad. rewrite Hc. fold theRequest. rewrite Hr, Ht, Hp. simpl. rewrite He. simpl.
  fold (content_with_ids w childName ps evs). rewrite Ht1, Ht2, Hsub, Hh.
  rewrite lookup_set_prop_ne by done. rewrite content_with_ids_events. simpl.
  match goal with
  | |- context [illustrate_cards ?w0 ?d ?i ?l ?upd ?s] =>
    destruct (illustrate_cards_trace w0 d l i upd s) as (st2 & -> & [Hl Htk] & Htr)
  end.
  simpl in Htr. rewrite imap_compose in Htr. simpl.
  eexists _, _. split; [done |]. simpl. rewrite imap_compose. split; [done |].
  rewrite Htr. rewrite <- !app_assoc. simpl. split; [done |].
  unfold requests_of, publications_of, has_alert. simpl.
  rewrite !omap_app, existsb_app. simpl.
  rewrite (omap_concat_imap _ _ (fun j e => match cardImageRequest ps j e with
                                            | Ok r => [r]
                                            | Throw _ => []
                                            end))
    by (intros j e; apply card_effects_stamped).
  rewrite (omap_concat_imap _ _ (fun _ _ => []))
    by (intros j e; apply card_effects_stamped).
  rewrite concat_imap_nil, app_nil_r.
  rewrite existsb_concat_imap by (intros j e; apply card_effects_stamped).
  done.
Qed.

(** The story-image phase throws: the loop does not run. *)
Lemma run_story_failed st u resp txt ps evs e :
  newGoogleGenAI w = Ok u ->
  generateContent w theRequest = Ok resp ->
  truthy (GenAI.text resp) = Some txt ->
  JSON_parse w txt = Ok (VObj ps) ->
  lookup_prop "sequenceEvents" ps = VArr evs ->
  story_phase w ps = Throw e ->
  exists st' new,
    handleGenerate w topic childName difficulty st = (Ok tt, st') /\
    toolkitData st' = Some (VObj (content_with_ids w childName ps evs)) /\
    trace st' = trace st ++ new /\
    requests_of new
    = theRequest :: match storyImageRequest ps with
                    | Ok heroRequest => [heroRequest]
                    | Throw _ => []
                    end /\
    publications_of new
    = [None; Some (VObj (content_with_ids w childName ps evs))] /\
    has_alert new = true.
Proof.
  intros Hc Hr Ht Hp He Hs. unfold story_phase, storyImageRequest in *.
  run_monad. rewrite Hc. fold theRequest. rewrite Hr, Ht, Hp. simpl. rewrite He. simpl.
  fold (content_with_ids w childName ps evs).
  destruct (ToString (lookup_prop "title" ps)) as [[] | e0];
    [| simpl; eexists _, _; split; [done |]; split; [done |]; simpl;
       rewrite <- !app_assoc; by simpl].
  destruct (ToString (lookup_prop "visualStyle" ps)) as [[] | e0'];
    [| simpl; eexists _, _; split; [done |]; split; [done |]; simpl;
       rewrite <- !app_assoc; by simpl].
  destruct (substring_0_150 (lookup_prop "storyText" ps)) as [excerpt | e1];
    [| simpl; eexists _, _; split; [done |]; split; [done |]; simpl;
       rewrite <- !app_assoc; by simpl].
  rewrite Hs. simpl. eexists _, _. split; [done |]. split; [done |]. simpl.
  rewrite <- !app_assoc. by simpl.
Qed.

End Phases.

(** ** The claims about runs *)

(** C6. When the content arrives with an array of events, the story-image
    request can be built and its response carries no inline image: the run
    returns normally and the toolkit on display has [storyImageUrl]
    undefined and as many events as the payload. An event whose [try]
    block throws (the prompt cannot be built or the request is rejected)
    is the event as first published, its [imageUrl] what the payload gave
    it (unset). An event whose request returns has its [imageUrl] set to
    the data URI of the first part of the response with non-empty inline
    data, whatever the other events did; it is undefined only when the
    response has no such part. *)
Theorem partial_failure_publishes (w : World) (topic childName difficulty : string)
    (st : AppState) (u : unit) (resp hero : GenAI.Response) (txt : string)
    (ps : list (string * value)) (evs : list value) (heroRequest : request) :
  newGoogleGenAI w = Ok u ->
  generateContent w (contentRequest topic childName difficulty) = Ok resp ->
  truthy (GenAI.text resp) = Some txt ->
  JSON_parse w txt = Ok (VObj ps) ->
  lookup_prop "sequenceEvents" ps = VArr evs ->
  storyImageRequest ps = Ok heroRequest ->
  generateContent w heroRequest = Ok hero ->
  Forall (fun p => has_data p = false) (all_parts hero) ->
  exists st' content updated,
    handleGenerate w topic childName difficulty st = (Ok tt, st') /\
    loading st' = false /\
    toolkitData st' = Some (VObj content) /\
    lookup_prop "storyImageUrl" content = VUndefined /\
    lookup_prop "sequenceEvents" content = VArr updated /\
    length updated = length evs /\
    forall i e, evs !! i = Some e ->
      exists event,
        updated !! i = Some (VObj event) /\
        match card_phase w ps i e with
        | Throw _ =>
          VObj event = with_id w e i /\
          lookup_prop "imageUrl" event = lookup_prop "imageUrl" (spread e)
        | Ok seqImgResponse =>
          (forall before p after d payload,
             all_parts seqImgResponse = before ++ p :: after ->
             Forall (fun q => has_data q = false) before ->
             GenAI.inlineData p = Some d ->
             GenAI.data d = Some payload ->
             payload <> EmptyString ->
             lookup_prop "imageUrl" event = VStr (data_uri d payload)) /\
          (Forall (fun q => has_data q = false) (all_parts seqImgResponse) ->
           lookup_prop "imageUrl" event = VUndefined)
        end.
Proof.
  intros Hc Hr Ht Hp He Hs Hh Hx.
  destruct (run_accepts w topic childName difficulty st u resp txt ps evs)
    as (st' & Hrun & Hl & Htk); try done.
  unfold final_content, story_phase in Htk. rewrite Hs, Hh in Htk.
  rewrite (extractImage_none hero Hx) in Htk. simpl in Htk.
  eexists st', _, _. split; [done |]. split; [done |]. split; [exact Htk |].
  split; [| split; [apply lookup_set_prop_eq | split; [by rewrite length_imap |]]].
  { rewrite lookup_set_prop_ne by done. apply lookup_set_prop_eq. }
  intros i e Hi. rewrite list_lookup_imap, Hi. simpl.
  rewrite illustrated_stamped.
  destruct (card_phase w ps i e) as [r | err].
  - eexists. split; [done |]. rewrite lookup_set_prop_eq. split.
    + intros before p after d payload Hparts Hbefore Hd Hdata Hne.
      by rewrite (extractImage_found r before p after d payload).
    + intros Hnone. by rewrite (extractImage_none r Hnone).
  - eexists. split; [done |]. split; [done |]. by rewrite lookup_set_prop_ne.
Qed.

Lemma partial_failure_publishes_witness :
  exists st' content updated card0 card2,
    handleGenerate partial_failure_world "kite" "Mia" "Easy" app_mount = (Ok tt, st') /\
    loading st' = false /\
    toolkitData st' = Some (VObj content) /\
    lookup_prop "storyImageUrl" content = VUndefined /\
    lookup_prop "sequenceEvents" content = VArr updated /\
    length updated = 4 /\
    updated !! 0 = Some (VObj card0) /\
    lookup_prop "imageUrl" card0 = VStr "data:image/png;base64,img0" /\
    updated !! 2 = Some (VObj card2) /\
    VObj card2 = with_id partial_failure_world (sample_event 3 "A dog finds it") 2 /\
    lookup_prop "imageUrl" card2 = VUndefined.
Proof.
  destruct (partial_failure_publishes partial_failure_world "kite" "Mia" "Easy"
              app_mount tt (text_response (Some "payload")) no_image_response
              "payload" (sample_props four_questions four_events) four_events
              (StoryImageRequest (VStr "Mia and the Kite")
                 (VStr "Soft storybook watercolor") sample_story))
    as (st' & content & updated & Hrun & Hload & Htk & Hstory & Hevents & Hlen & Hev).
  - reflexivity.
  - reflexivity.
  - reflexivity.
  - reflexivity.
  - reflexivity.
  - reflexivity.
  - reflexivity.
  - constructor.
  - destruct (Hev 0 (sample_event 1 "Mia loses her kite") eq_refl)
      as (card0 & Hcard0 & Hurl0 & _).
    destruct (Hev 2 (sample_event 3 "A dog finds it") eq_refl)
      as (card2 & Hcard2 & Hsame2 & Hurl2).
    exists st', content, updated, card0, card2.
    split; [exact Hrun |]. split; [exact Hload |]. split; [exact Htk |].
    split; [exact Hstory |]. split; [exact Hevents |]. split; [exact Hlen |].
    split; [exact Hcard0 |]. split.
    { apply (Hurl0 [] {| GenAI.inlineData :=
                           Some {| GenAI.mimeType := Some "image/png";
                                   GenAI.data := Some "img0" |} |}
               [] {| GenAI.mimeType := Some "image/png"; GenAI.data := Some "img0" |}
               "img0"); [reflexivity | constructor | reflexivity | reflexivity |].
      intros H. discriminate H. }
    split; [exact Hcard2 |]. split; [exact Hsame2 |]. exact Hurl2.
Defined.

(** The run of the partial-failure scenario, evaluated: cards 0, 1 and 3
    carry their image, card 2 has none, and no failure notice is shown. *)
Example partial_failure_run :
  let '(r, st') := handleGenerate partial_failure_world "kite" "Mia" "Easy" app_mount in
  r = Ok tt /\
  displayed_image_urls st'
  = [VStr "data:image/png;base64,img0"; VStr "data:image/png;base64,img1";
     VUndefined; VStr "data:image/png;base64,img3"] /\
  alerted st' = false.
Proof. vm_compute. done. Qed.

(** C7. When the content response has no text or an empty text, the body of
    the run throws [Error "No text generated"]; the handler returns
    normally with the failure notice shown, no toolkit on display, and a
    trace in which the content request is the only request and the clearing
    of the toolkit the only publication. *)
Theorem empty_content_aborts (w : World) (topic childName difficulty : string)
    (st : AppState) (u : unit) (resp : GenAI.Response) :
  newGoogleGenAI w = Ok u ->
  generateContent w (contentRequest topic childName difficulty) = Ok resp ->
  GenAI.text resp = None \/ GenAI.text resp = Some EmptyString ->
  (forall st0,
     (generate w topic childName difficulty st0).1 = Throw (Error "No text generated")) /\
  exists st',
    handleGenerate w topic childName difficulty st = (Ok tt, st') /\
    loading st' = false /\
    toolkitData st' = None /\
    trace st' = trace st ++ rejected_trace topic childName difficulty
                              (Error "No text generated").
Proof.
  intros Hc Hr Ht.
  assert (truthy (GenAI.text resp) = None) as Hn.
  { by destruct Ht as [-> | ->]. }
  split.
  - intros st0. run_monad. rewrite Hc, Hr. simpl. by rewrite Hn.
  - by eapply run_rejects_no_text.
Qed.

Lemma empty_content_aborts_witness :
  (forall st0,
     (generate empty_text_world "kite" "Mia" "Easy" st0).1
     = Throw (Error "No text generated")) /\
  exists st',
    handleGenerate empty_text_world "kite" "Mia" "Easy" app_mount = (Ok tt, st') /\
    loading st' = false /\
    toolkitData st' = None /\
    trace st' = trace app_mount ++ rejected_trace "kite" "Mia" "Easy"
                                     (Error "No text generated").
Proof.
  apply (empty_content_aborts empty_text_world "kite" "Mia" "Easy" app_mount tt
           (text_response (Some EmptyString))).
  - reflexivity.
  - reflexivity.
  - right. reflexivity.
Defined.




(** * Further properties of the card board *)

Section Moves.
Implicit Types (st : BoardState) (c : SequenceEvent).

(** A pool card dropped on an empty slot: the slot takes the card, the pool
    loses that position and nothing else moves. *)
Lemma pool_card_to_empty_slot st j k c :
  pool st !! j = Some c ->
  slots st !! k = Some None ->
  perform_gesture [] (PoolToSlot j k) st
  = {| slots := <[k := Some c]> (slots st); pool := delete j (pool st);
       draggedItem := None |}.
Proof.
  intros Hj Hk. unfold perform_gesture, drag_from_pool. rewrite Hj.
  unfold handleDropOnSlot, handleDragStart, array_get. simpl. rewrite Hk. simpl.
  rewrite array_set_inside by (by eapply lookup_lt_Some). done.
Qed.

(** X2. A slot card dropped on another slot: onto an empty slot the card just
    moves; onto an occupied slot the occupant is not put in the origin slot
    but at the end of the pool, and the origin slot stays empty. *)
Theorem slot_card_to_slot st i k c :
  slots st !! i = Some (Some c) ->
  i <> k ->
  k < length (slots st) ->
  let st' := perform_gesture [] (SlotToSlot i k) st in
  slots st' = <[k := Some c]> (<[i := None]> (slots st)) /\
  slots st' !! i = Some None /\
  slots st' !! k = Some (Some c) /\
  pool st' = pool st ++ option_list (array_get k (slots st)) /\
  draggedItem st' = None.
Proof.
  intros Hi Hne Hk st'. subst st'.
  assert (i < length (slots st)) as Hil by (by eapply lookup_lt_Some).
  unfold perform_gesture, drag_from_slot.
  assert (array_get i (slots st) = Some c) as -> by (unfold array_get; by rewrite Hi).
  unfold handleDropOnSlot, handleDragStart. simpl.
  rewrite (array_set_inside i) by done.
  rewrite array_set_inside by (by rewrite length_insert).
  split; [by destruct (array_get k (slots st)) |].
  split.
  { destruct (array_get k (slots st)); simpl;
      rewrite list_lookup_insert_ne by done;
      by rewrite list_lookup_insert_eq. }
  split.
  { destruct (array_get k (slots st)); simpl;
      by rewrite list_lookup_insert_eq by (by rewrite length_insert). }
  destruct (array_get k (slots st)); simpl; [done |]. by rewrite app_nil_r.
Qed.

(** X1. Placing a pool card on an empty slot and dragging it back to the pool
    restores the slots; the card has moved to the end of the pool. *)
Theorem place_and_return st j k c :
  pool st !! j = Some c ->
  slots st !! k = Some None ->
  perform_gesture [] (SlotToPool k) (perform_gesture [] (PoolToSlot j k) st)
  = {| slots := slots st; pool := delete j (pool st) ++ [c];
       draggedItem := None |}.
Proof.
  intros Hj Hk. rewrite (pool_card_to_empty_slot st j k c Hj Hk).
  assert (k < length (slots st)) as Hlen by (by eapply lookup_lt_Some).
  unfold perform_gesture, drag_from_slot, array_get. simpl.
  rewrite list_lookup_insert_eq by done. simpl.
  unfold handleDropOnPool. simpl.
  rewrite array_set_inside by (by rewrite length_insert).
  rewrite list_insert_insert_eq. by rewrite list_insert_id.
Qed.

End Moves.

Lemma slot_card_to_slot_witness :
  let st' := perform_gesture [] (SlotToSlot 0 1)
               {| slots := [Some E1; Some E2; None; None]; pool := [E3; E4];
                  draggedItem := None |} in
  slots st' = [None; Some E1; None; None] /\
  slots st' !! 0 = Some None /\
  slots st' !! 1 = Some (Some E1) /\
  pool st' = [E3; E4; E2] /\
  draggedItem st' = None.
Proof.
  apply (slot_card_to_slot
           {| slots := [Some E1; Some E2; None; None]; pool := [E3; E4];
              draggedItem := None |} 0 1 E1).
  - reflexivity.
  - lia.
  - simpl. lia.
Defined.

Lemma place_and_return_witness :
  perform_gesture [] (SlotToPool 2) (perform_gesture [] (PoolToSlot 2 2) fresh_board)
  = {| slots := [None; None; None; None]; pool := [E1; E2; E4; E3];
       draggedItem := None |}.
Proof. apply (place_and_return fresh_board 2 2 E3); reflexivity. Defined.

(** ** Boards reached by gestures *)

Section Gestures.
Variable events : list SequenceEvent.
Implicit Types (st : BoardState) (g : gesture) (gs : list gesture).

Lemma array_set_length {A} i (v : option A) (a : list (option A)) :
  i < length a -> length (array_set i v a) = length a.
Proof. intros Hi. rewrite array_set_inside by done. apply length_insert. Qed.

Lemma drop_on_slot_length st d k :
  draggedItem st = Some d ->
  k < length (slots st) ->
  (source d = FromSlot -> index d < length (slots st)) ->
  length (slots (handleDropOnSlot k st)) = length (slots st).
Proof.
  intros Hd Hk Hi. unfold handleDropOnSlot. rewrite Hd.
  destruct (source d); simpl.
  - by rewrite array_set_length.
  - rewrite !array_set_length; [done | by apply Hi |].
    rewrite array_set_length; [done | by apply Hi].
Qed.

Lemma drop_on_pool_length st d :
  draggedItem st = Some d ->
  (source d = FromSlot -> index d < length (slots st)) ->
  length (slots (handleDropOnPool st)) = length (slots st).
Proof.
  intros Hd Hi. unfold handleDropOnPool. rewrite Hd.
  destruct (source d); simpl; [done |]. rewrite array_set_length; [done | by apply Hi].
Qed.

(** What one gesture does to the cards on a four-slot board: a reset deals
    the source cards again, a drop of a slot's card on its own slot adds a
    reference to that card, and every other gesture rearranges the cards
    that are there. *)
Lemma gesture_cards g st :
  length (slots st) = 4 ->
  gesture_ok events g ->
  length (slots (perform_gesture events g st)) = 4 /\
  match g with
  | PressReset _ => placed (perform_gesture events g st) ≡ₚ events
  | SlotToSlot i k =>
    if decide (i = k) then
      placed (perform_gesture events g st) ≡ₚ placed st \/
      exists c, placed (perform_gesture events g st) ≡ₚ c :: placed st
    else placed (perform_gesture events g st) ≡ₚ placed st
  | _ => placed (perform_gesture events g st) ≡ₚ placed st
  end.
Proof.
  intros Hlen Hok. destruct g as [j k | i k | i | j | shuffle]; simpl in *.
  - unfold drag_from_pool. destruct (pool st !! j) as [c |] eqn:Hj; [| done].
    split.
    + erewrite drop_on_slot_length; simpl; [done | done | lia | done].
    + change (placed st) with (placed (handleDragStart c FromPool j st)).
      apply (drop_on_slot_conserves _ {| item := c; source := FromPool; index := j |});
        simpl; [done | done | lia | done].
  - destruct Hok as [Hi Hk]. unfold drag_from_slot.
    destruct (array_get i (slots st)) as [c |] eqn:Hc;
      [| split; [done | case_decide; [by left | done]]].
    split.
    + erewrite drop_on_slot_length; simpl; [done | done | lia | intros; simpl; lia].
    + case_decide as Hik.
      * subst k. right. exists c. by apply drop_on_origin_adds.
      * apply array_get_Some in Hc as [Hc _].
        change (placed st) with (placed (handleDragStart c FromSlot i st)).
        apply (drop_on_slot_conserves _ {| item := c; source := FromSlot; index := i |});
          simpl; [done | done | lia | done].
  - unfold drag_from_slot.
    destruct (array_get i (slots st)) as [c |] eqn:Hc; [| done].
    split.
    + erewrite drop_on_pool_length; simpl; [done | done | intros; simpl; lia].
    + apply array_get_Some in Hc as [Hc _].
      change (placed st) with (placed (handleDragStart c FromSlot i st)).
      by apply (drop_on_pool_conserves _ {| item := c; source := FromSlot; index := i |}).
  - unfold drag_from_pool. by destruct (pool st !! j).
  - split; [done |]. unfold placed, slot_cards. simpl. done.
Qed.

Lemma count_id_submseteq cid (l1 l2 : list SequenceEvent) :
  l1 ⊆+ l2 -> count_id cid l1 <= count_id cid l2.
Proof.
  induction 1 as [| x l1 l2 _ IH | x y l | x l1 l2 _ IH | l1 l2 l3 _ IH1 _ IH2];
    rewrite ?count_id_cons; try lia.
Qed.

(** X3. However the gestures follow one another, no source card leaves the
    board, and the board keeps its four slots. *)
Theorem gestures_never_lose_a_card (first : Shuffle) gs :
  first events ≡ₚ events ->
  Forall (gesture_ok events) gs ->
  length (slots (play events first gs)) = 4 /\
  forall c, c ∈ events -> 1 <= occurrences (id c) (play events first gs).
Proof.
  intros Hfirst Hgs.
  assert (length (slots (play events first gs)) = 4 /\
          events ⊆+ placed (play events first gs)) as [Hlen Hsub].
  { unfold play.
    assert (length (slots (initialize first events mount)) = 4 /\
            events ⊆+ placed (initialize first events mount)) as Hinit.
    { split; [done |]. unfold placed, slot_cards. simpl. by rewrite Hfirst. }
    revert Hinit. generalize (initialize first events mount).
    induction Hgs as [| g gs Hg _ IH]; intros st [Hlen Hsub]; [done |].
    simpl. apply IH.
    destruct (gesture_cards g st Hlen Hg) as [Hlen' Hcards].
    split; [done |].
    destruct g as [j k | i k | i | j | shuffle];
      try (by rewrite Hcards).
    case_decide; [| by rewrite Hcards].
    destruct Hcards as [Hcards | [c Hcards]]; rewrite Hcards; [done |].
    by apply submseteq_cons. }
  split; [done |]. intros c Hc. unfold occurrences.
  assert (count_id (id c) events <= count_id (id c) (placed (play events first gs)))
    by by apply count_id_submseteq.
  assert (1 <= count_id (id c) events); [| lia].
  clear -Hc. induction events as [| x l IH]; [by apply elem_of_nil in Hc |].
  rewrite count_id_cons. apply elem_of_cons in Hc as [-> | Hc].
  - rewrite (proj2 (has_id_true (id x) x)) by done. lia.
  - specialize (IH Hc). lia.
Qed.

(** X4. When no gesture drops a slot's card on its own slot, every source
    card shows in exactly one place after any sequence of gestures. *)
Theorem gestures_keep_board_ok (first : Shuffle) gs :
  NoDup (id <$> events) ->
  first events ≡ₚ events ->
  Forall (gesture_ok events) gs ->
  Forall leaves_origin gs ->
  placed (play events first gs) ≡ₚ events /\
  board_ok events (play events first gs).
Proof.
  intros Hnd Hfirst Hgs Hself.
  assert (length (slots (play events first gs)) = 4 /\
          placed (play events first gs) ≡ₚ events) as [_ Hperm].
  { unfold play.
    assert (length (slots (initialize first events mount)) = 4 /\
            placed (initialize first events mount) ≡ₚ events) as Hinit.
    { split; [done |]. unfold placed, slot_cards. simpl. done. }
    revert Hinit. generalize (initialize first events mount).
    induction Hgs as [| g gs Hg _ IH]; intros st [Hlen Hperm]; [done |].
    apply Forall_cons in Hself as [Hg' Hself].
    simpl. apply IH; [done |].
    destruct (gesture_cards g st Hlen Hg) as [Hlen' Hcards].
    split; [done |].
    destruct g as [j k | i k | i | j | shuffle];
      try (by rewrite Hcards).
    simpl in Hg'. rewrite decide_False in Hcards by done. by rewrite Hcards. }
  split; [done |]. intros c Hc. unfold occurrences.
  rewrite (count_id_perm _ _ _ Hperm). by apply count_id_unique.
Qed.

End Gestures.

Lemma gestures_never_lose_a_card_witness :
  let st := play sample_events (insertion_shuffle [false])
              [PoolToSlot 0 0; SlotToSlot 0 0; PoolToPool 1;
               PressReset (insertion_shuffle [true; false]); SlotToPool 3] in
  length (slots st) = 4 /\
  forall c, c ∈ sample_events -> 1 <= occurrences (id c) st.
Proof.
  apply (gestures_never_lose_a_card sample_events (insertion_shuffle [false])).
  - apply insertion_shuffle_perm.
  - repeat (apply Forall_cons_2 || apply Forall_nil_2); simpl;
      first [lia | exact I | apply insertion_shuffle_perm].
Defined.

Lemma gestures_keep_board_ok_witness :
  let st := play sample_events (insertion_shuffle [false])
              [PoolToSlot 0 0; PoolToSlot 0 0; SlotToSlot 0 3; SlotToPool 3;
               PressReset (insertion_shuffle [true; false]); PoolToSlot 2 1] in
  placed st ≡ₚ sample_events /\ board_ok sample_events st.
Proof.
  apply (gestures_keep_board_ok sample_events (insertion_shuffle [false])).
  - apply (bool_decide_unpack _). vm_compute. exact I.
  - apply insertion_shuffle_perm.
  - repeat (apply Forall_cons_2 || apply Forall_nil_2); simpl;
      first [lia | exact I | apply insertion_shuffle_perm].
  - repeat (apply Forall_cons_2 || apply Forall_nil_2); simpl;
      first [lia | exact I].
Defined.

(** ** Every board of a mounted component *)

Section Mounted.
Implicit Types (st : BoardState) (sl : list (option SequenceEvent)).

Local Abbreviation cards := (omap (fun s : option SequenceEvent => s)).

Lemma cards_cleared sl k c : c ∈ cards (<[k := None]> sl) -> c ∈ cards sl.
Proof.
  destruct (decide (k < length sl)) as [Hk | Hk].
  - destruct (lookup_lt_is_Some_2 _ _ Hk) as [o Ho].
    rewrite (cards_lookup sl k o Ho). intros Hc. apply elem_of_app. by right.
  - by rewrite list_insert_ge by lia.
Qed.

Lemma cards_written sl k o c :
  k < length sl -> c ∈ cards (<[k := o]> sl) -> Some c = o \/ c ∈ cards sl.
Proof.
  intros Hk. rewrite (cards_insert sl k o Hk).
  intros [Hc | Hc]%elem_of_app.
  - left. destruct o; simpl in Hc; [| by apply elem_of_nil in Hc].
    by apply list_elem_of_singleton in Hc as ->.
  - right. by eapply cards_cleared.
Qed.

(** A step of the rendered board keeps the shape of the board, for any
    property that the source cards have. *)
Lemma ui_step_shape (P : SequenceEvent -> Prop) events st st' :
  (forall c, c ∈ events -> P c) ->
  board_shape P st -> ui_step events st st' -> board_shape P st'.
Proof.
  intros HP Hshape Hstep.
  destruct Hstep as [st i c Hc | st i c Hi Hc | st k Hk | st | st shuffle Hsh];
    pose proof Hshape as (Hlen & Hsrc & Hdrag).
  - split; [done |]. split; [done |]. intros d [= <-]. simpl. split; [| done].
    apply Hsrc, elem_of_app. right. by eapply list_elem_of_lookup_2.
  - split; [done |]. split; [done |]. intros d [= <-]. simpl. split; [| done].
    apply Hsrc, elem_of_app. left. by eapply slot_card_placed.
  - unfold handleDropOnSlot. destruct (draggedItem st) as [d |] eqn:Hd; [| done].
    clear Hshape. destruct (Hdrag d eq_refl) as [Hitem Hidx].
    assert (forall c, array_get k (slots st) = Some c -> P c) as Htarget.
    { intros c Hc. apply Hsrc, elem_of_app. left. by eapply slot_card_placed. }
    destruct (source d) eqn:Es; unfold board_shape; simpl.
    + split; [by rewrite array_set_length by lia |]. split; [| done].
      unfold placed, slot_cards. simpl. rewrite array_set_inside by lia.
      intros c [Hc | Hc]%elem_of_app.
      * apply cards_written in Hc as [[= ->] | Hc]; [done | | lia].
        apply Hsrc, elem_of_app. by left.
      * destruct (array_get k (slots st)) as [a |] eqn:Ha; unfold push, splice1 in Hc.
        -- apply elem_of_app in Hc as [Hc | Hc].
           ++ apply Hsrc, elem_of_app. right. by eapply list_elem_of_delete_inv.
           ++ apply list_elem_of_singleton in Hc as ->. by apply Htarget.
        -- apply Hsrc, elem_of_app. right. by eapply list_elem_of_delete_inv.
    + specialize (Hidx eq_refl).
      split; [by rewrite !array_set_length by (rewrite ?array_set_length; lia) |].
      split; [| done].
      unfold placed, slot_cards. simpl.
      rewrite (array_set_inside (index d)) by lia.
      rewrite array_set_inside by (rewrite length_insert; lia).
      intros c [Hc | Hc]%elem_of_app.
      * apply cards_written in Hc as [[= ->] | Hc];
          [done | | rewrite length_insert; lia].
        apply cards_cleared in Hc. apply Hsrc, elem_of_app. by left.
      * destruct (array_get k (slots st)) as [a |] eqn:Ha; unfold push in Hc.
        -- apply elem_of_app in Hc as [Hc | Hc].
           ++ apply Hsrc, elem_of_app. by right.
           ++ apply list_elem_of_singleton in Hc as ->. by apply Htarget.
        -- apply Hsrc, elem_of_app. by right.
  - unfold handleDropOnPool. destruct (draggedItem st) as [d |] eqn:Hd; [| done].
    destruct (Hdrag d eq_refl) as [Hitem Hidx].
    destruct (source d) eqn:Es; [done |]. clear Hshape.
    specialize (Hidx eq_refl). unfold board_shape. simpl.
    split; [by rewrite array_set_length by lia |]. split; [| done].
    unfold placed, slot_cards. simpl. rewrite array_set_inside by lia.
    intros c [Hc | Hc]%elem_of_app.
    + apply cards_cleared in Hc. apply Hsrc, elem_of_app. by left.
    + apply elem_of_app in Hc as [Hc | Hc].
      * apply Hsrc, elem_of_app. by right.
      * by apply list_elem_of_singleton in Hc as ->.
  - split; [done |]. split; [| done].
    unfold placed, slot_cards. simpl. intros c Hc. apply HP. by rewrite <- Hsh.
Qed.

(** X5. On a mounted board, whatever the user does and also when the
    effect deals the illustrated cards while a drag is still recorded, the
    slots array has exactly four entries and every card on the board
    carries the identifier of one of the current source cards. *)
Theorem mounted_board_shape events st :
  mounted events st ->
  length (slots st) = 4 /\
  forall c, c ∈ placed st -> id c ∈ id <$> events.
Proof.
  intros Hm.
  assert (board_shape (fun c => id c ∈ id <$> events) st) as (Hlen & Hsrc & _);
    [| done].
  induction Hm as [events shuffle Hsh | events st st' _ IH Hstep
                   | events events' shuffle st _ IH Hids Hsh].
  - split; [done |]. split; [| done].
    unfold placed, slot_cards. simpl. intros c Hc. rewrite Hsh in Hc.
    by apply list_elem_of_fmap_2.
  - eapply ui_step_shape; [| exact IH | exact Hstep].
    intros c Hc. by apply list_elem_of_fmap_2.
  - destruct IH as (Hlen & Hsrc & Hdrag).
    split; [done |]. split.
    + unfold placed, slot_cards. simpl. intros c Hc. rewrite Hsh in Hc.
      by apply list_elem_of_fmap_2.
    + simpl. intros d Hd. rewrite Hids. by apply Hdrag.
Qed.

End Mounted.

Lemma mounted_board_shape_witness :
  let st :=
    handleDropOnSlot 0
      (initialize (insertion_shuffle [true; true; false]) illustrated_events
         (handleDragStart E1 FromPool 0 fresh_board)) in
  array_get 0 (slots st) = Some E1 /\
  length (slots st) = 4 /\
  forall c, c ∈ placed st -> id c ∈ id <$> illustrated_events.
Proof.
  split; [reflexivity |].
  apply (mounted_board_shape illustrated_events).
  pose proof (mounted_init sample_events (insertion_shuffle [])
                (insertion_shuffle_perm _ _)) as H0.
  pose proof (mounted_ui _ _ _ H0
                (ui_drag_pool sample_events fresh_board 0 E1 eq_refl)) as H1.
  pose proof (mounted_illustrated sample_events illustrated_events
                (insertion_shuffle [true; true; false]) _ H1 eq_refl
                (insertion_shuffle_perm _ _)) as H2.
  exact (mounted_ui _ _ _ H2 (ui_drop_slot illustrated_events _ 0 ltac:(lia))).
Defined.

(** * Further properties of the generation pipeline *)

(** ** [extractImage] *)

Section ExtractImage.
Implicit Types (p : GenAI.Part) (ps : list GenAI.Part) (r : GenAI.Response).

Lemma part_image_None p : part_image p = None -> has_data p = false.
Proof.
  unfold has_data, part_image, truthy.
  destruct (GenAI.inlineData p) as [d |]; [| done].
  destruct (GenAI.data d) as [payload |]; [| done].
  by destruct (String.eqb payload EmptyString).
Qed.

(** X6. [extractImage] returns the data URI of the first part, in
    candidate order and then part order, whose inline data is present and
    not empty; it returns nothing exactly when the response has no such
    part. Missing candidates, content or parts count as none. *)
Theorem extractImage_first_part r :
  (forall before p after d payload,
     all_parts r = before ++ p :: after ->
     Forall (fun q => has_data q = false) before ->
     GenAI.inlineData p = Some d ->
     GenAI.data d = Some payload ->
     payload <> EmptyString ->
     extractImage r = Some (data_uri d payload)) /\
  (extractImage r = None <-> Forall (fun q => has_data q = false) (all_parts r)).
Proof.
  split; [apply extractImage_found |]. split; [| apply extractImage_none].
  rewrite extractImage_head.
  induction (all_parts r) as [| q qs IH]; simpl; [constructor |].
  destruct (part_image q) eqn:Hq; simpl; [done |].
  intros Hh. constructor; [by apply part_image_None | by apply IH].
Qed.

(** X7. An extracted image is a data URI built from one part of the
    response: its payload is that part's inline data and is not empty, its
    media type is the part's own when it has a non-empty one and
    [image/png] otherwise. *)
Theorem extractImage_data_uri r url :
  extractImage r = Some url ->
  exists p d payload,
    p ∈ all_parts r /\
    GenAI.inlineData p = Some d /\
    GenAI.data d = Some payload /\
    payload <> EmptyString /\
    url = ("data:" ++ match GenAI.mimeType d with
                      | Some m => if String.eqb m EmptyString then "image/png" else m
                      | None => "image/png"
                      end ++ ";base64," ++ payload)%string.
Proof.
  rewrite extractImage_head.
  intros Hh. apply head_Some_elem_of in Hh. apply list_elem_of_omap in Hh as (p & Hp & Hurl).
  exists p. unfold part_image in Hurl.
  destruct (GenAI.inlineData p) as [d |] eqn:Hd; [| done].
  destruct (truthy (GenAI.data d)) as [payload |] eqn:Ht; [| done].
  apply truthy_Some in Ht as [Hdata Hne].
  exists d, payload. repeat split; try done.
  injection Hurl as <-. unfold truthy.
  destruct (GenAI.mimeType d) as [m |]; [| done].
  by destruct (String.eqb m EmptyString).
Qed.

End ExtractImage.

Lemma extractImage_first_part_witness :
  extractImage mixed_response = Some "data:image/png;base64,AAAA"%string /\
  (extractImage no_image_response = None <->
   Forall (fun q => has_data q = false) (all_parts no_image_response)).
Proof.
  split.
  - apply (proj1 (extractImage_first_part mixed_response)
             [{| GenAI.inlineData := None |};
              {| GenAI.inlineData :=
                   Some {| GenAI.mimeType := Some "image/jpeg"%string;
                           GenAI.data := Some EmptyString |} |}]
             {| GenAI.inlineData :=
                  Some {| GenAI.mimeType := None; GenAI.data := Some "AAAA"%string |} |}
             [{| GenAI.inlineData :=
                   Some {| GenAI.mimeType := Some "image/jpeg"%string;
                           GenAI.data := Some "BBBB"%string |} |}]
             {| GenAI.mimeType := None; GenAI.data := Some "AAAA"%string |}
             "AAAA"%string).
    + reflexivity.
    + repeat constructor.
    + reflexivity.
    + reflexivity.
    + intros H. discriminate H.
  - apply (proj2 (extractImage_first_part no_image_response)).
Defined.

Lemma extractImage_data_uri_witness :
  exists p d payload,
    p ∈ all_parts mixed_response /\
    GenAI.inlineData p = Some d /\
    GenAI.data d = Some payload /\
    payload <> EmptyString /\
    "data:image/png;base64,AAAA"%string
    = ("data:" ++ match GenAI.mimeType d with
                  | Some m => if String.eqb m EmptyString then "image/png" else m
                  | None => "image/png"
                  end ++ ";base64," ++ payload)%string.
Proof.
  apply (extractImage_data_uri mixed_response "data:image/png;base64,AAAA").
  reflexivity.
Defined.

(** ** Whole runs *)

Section WholeRuns.
Variable w : World.
Variables topic childName difficulty : string.

Let theRequest : request := contentRequest topic childName difficulty.

(** X8. Whatever the service does, [handleGenerate] returns to its caller
    without throwing and leaves [loading] false. *)
Theorem handleGenerate_returns st :
  exists st',
    handleGenerate w topic childName difficulty st = (Ok tt, st') /\
    loading st' = false.
Proof.
  unfold handleGenerate, try_finally, try_catch.
  unfold bind at 1 2. simpl.
  destruct (generate w topic childName difficulty _) as [[[] | e] st1]; simpl.
  - by eexists.
  - unfold bind, perform. simpl. by eexists.
Qed.

(** X9. When the client cannot be constructed, nothing is requested and the
    toolkit that was on display stays on display; the failure is logged and
    the notice shown. *)
Theorem client_failure_keeps_toolkit st e :
  newGoogleGenAI w = Throw e ->
  exists st',
    handleGenerate w topic childName difficulty st = (Ok tt, st') /\
    toolkitData st' = toolkitData st /\
    loading st' = false /\
    trace st' = trace st ++ [ConsoleError "Error generating toolkit:" e;
                             Alert rejection_alert].
Proof.
  intros Hc. run_monad. rewrite Hc. simpl.
  eexists. repeat split. simpl. by rewrite <- app_assoc.
Qed.

(** X10. When the content request itself fails, the toolkit that was on
    display is gone: it was cleared before the request was sent. *)
Theorem content_failure_clears_toolkit st u e :
  newGoogleGenAI w = Ok u ->
  generateContent w theRequest = Throw e ->
  exists st',
    handleGenerate w topic childName difficulty st = (Ok tt, st') /\
    toolkitData st' = None /\
    loading st' = false /\
    trace st' = trace st ++ rejected_trace topic childName difficulty e.
Proof.
  intros Hc Hr. run_monad. rewrite Hc. fold theRequest. rewrite Hr. simpl.
  eexists. repeat split. simpl. by rewrite <- !app_assoc.
Qed.

(** X11. When the payload has an array of events and the story-image
    phase throws (the title or the style guide cannot be converted to
    text, the story text is not a string, or the request is rejected),
    the toolkit published with identifiers stays on display, it was
    published twice in all, the story-image request is the only image
    request and is sent only when its prompt could be built, no card image
    is requested, and the failure notice is shown. *)
Theorem story_image_failure_keeps_text st u resp txt ps evs e :
  newGoogleGenAI w = Ok u ->
  generateContent w theRequest = Ok resp ->
  truthy (GenAI.text resp) = Some txt ->
  JSON_parse w txt = Ok (VObj ps) ->
  lookup_prop "sequenceEvents" ps = VArr evs ->
  story_phase w ps = Throw e ->
  exists st' new,
    handleGenerate w topic childName difficulty st = (Ok tt, st') /\
    toolkitData st' = Some (VObj (content_with_ids w childName ps evs)) /\
    trace st' = trace st ++ new /\
    requests_of new
    = theRequest :: match storyImageRequest ps with
                    | Ok heroRequest => [heroRequest]
                    | Throw _ => []
                    end /\
    publications_of new
    = [None; Some (VObj (content_with_ids w childName ps evs))] /\
    has_alert new = true.
Proof. apply run_story_failed. Qed.

(** X12. In a run whose content and story image arrive, the requests go
    out one after the other: the content request, the story-image request,
    then, in payload order, one image request for each event whose prompt
    can be built, whether or not earlier ones failed. The toolkit is
    published four times: cleared, with identifiers, with the story image,
    and once more after the whole loop with all card images together; no
    failure notice is shown. *)
Theorem requests_in_order st u resp hero txt ps evs heroRequest :
  newGoogleGenAI w = Ok u ->
  generateContent w theRequest = Ok resp ->
  truthy (GenAI.text resp) = Some txt ->
  JSON_parse w txt = Ok (VObj ps) ->
  lookup_prop "sequenceEvents" ps = VArr evs ->
  storyImageRequest ps = Ok heroRequest ->
  generateContent w heroRequest = Ok hero ->
  exists st' new,
    handleGenerate w topic childName difficulty st = (Ok tt, st') /\
    trace st' = trace st ++ new /\
    requests_of new
    = theRequest :: heroRequest ::
      concat (imap (fun i e => match cardImageRequest ps i e with
                               | Ok r => [r]
                               | Throw _ => []
                               end) evs) /\
    publications_of new
    = [None;
       Some (VObj (content_with_ids w childName ps evs));
       Some (VObj (set_prop "storyImageUrl" (optional (extractImage hero))
                     (content_with_ids w childName ps evs)));
       Some (VObj (final_content w childName ps evs))] /\
    has_alert new = false.
Proof.
  intros Hc Hr Ht Hp He Hs Hh.
  destruct (run_illustrated w topic childName difficulty st u resp hero txt ps evs
              heroRequest) as (st' & new & Hrun & _ & Htr & Hreq & Hpub & Ha);
    try done.
  by exists st', new.
Qed.

End WholeRuns.

Lemma client_failure_keeps_toolkit_witness :
  exists st',
    handleGenerate no_client_world "kite" "Mia" "Easy" showing_toolkit = (Ok tt, st') /\
    toolkitData st' = Some (sample_payload four_questions four_events) /\
    loading st' = false /\
    trace st' = [ConsoleError "Error generating toolkit:" (Error "An API Key must be set");
                 Alert rejection_alert].
Proof.
  apply (client_failure_keeps_toolkit no_client_world "kite" "Mia" "Easy"
           showing_toolkit (Error "An API Key must be set")).
  reflexivity.
Defined.

Lemma content_failure_clears_toolkit_witness :
  exists st',
    handleGenerate offline_world "kite" "Mia" "Easy" showing_toolkit = (Ok tt, st') /\
    toolkitData st' = None /\
    loading st' = false /\
    trace st' = rejected_trace "kite" "Mia" "Easy" (Rejected "network").
Proof.
  apply (content_failure_clears_toolkit offline_world "kite" "Mia" "Easy"
           showing_toolkit tt (Rejected "network")).
  - reflexivity.
  - reflexivity.
Defined.

Lemma story_image_failure_keeps_text_witness :
  (exists st' new,
     handleGenerate hero_failure_world "kite" "Mia" "Easy" app_mount = (Ok tt, st') /\
     toolkitData st'
     = Some (VObj (content_with_ids hero_failure_world "Mia"
                     (sample_props four_questions four_events) four_events)) /\
     trace st' = trace app_mount ++ new /\
     requests_of new
     = [contentRequest "kite" "Mia" "Easy";
        StoryImageRequest (VStr "Mia and the Kite") (VStr "Soft storybook watercolor")
          sample_story] /\
     publications_of new
     = [None; Some (VObj (content_with_ids hero_failure_world "Mia"
                            (sample_props four_questions four_events) four_events))] /\
     has_alert new = true) /\
  (exists st' new,
     handleGenerate odd_title_world "kite" "Mia" "Easy" app_mount = (Ok tt, st') /\
     toolkitData st'
     = Some (VObj (content_with_ids odd_title_world "Mia" odd_title_props four_events)) /\
     trace st' = trace app_mount ++ new /\
     requests_of new = [contentRequest "kite" "Mia" "Easy"] /\
     publications_of new
     = [None; Some (VObj (content_with_ids odd_title_world "Mia" odd_title_props
                            four_events))] /\
     has_alert new = true) /\
  (exists st' new,
     handleGenerate no_story_world "kite" "Mia" "Easy" app_mount = (Ok tt, st') /\
     toolkitData st'
     = Some (VObj (content_with_ids no_story_world "Mia" no_story_props four_events)) /\
     trace st' = trace app_mount ++ new /\
     requests_of new = [contentRequest "kite" "Mia" "Easy"] /\
     publications_of new
     = [None; Some (VObj (content_with_ids no_story_world "Mia" no_story_props
                            four_events))] /\
     has_alert new = true).
Proof.
  split; [| split].
  - apply (story_image_failure_keeps_text hero_failure_world "kite" "Mia" "Easy"
             app_mount tt (text_response (Some "payload")) "payload"
             (sample_props four_questions four_events) four_events (Rejected "429"));
      reflexivity.
  - apply (story_image_failure_keeps_text odd_title_world "kite" "Mia" "Easy"
             app_mount tt (text_response (Some "payload")) "payload"
             odd_title_props four_events TypeError);
      reflexivity.
  - apply (story_image_failure_keeps_text no_story_world "kite" "Mia" "Easy"
             app_mount tt (text_response (Some "payload")) "payload"
             no_story_props four_events TypeError);
      reflexivity.
Defined.

Lemma requests_in_order_witness :
  exists st' new,
    handleGenerate odd_prompt_world "kite" "Mia" "Easy" app_mount = (Ok tt, st') /\
    trace st' = trace app_mount ++ new /\
    requests_of new
    = [contentRequest "kite" "Mia" "Easy";
       StoryImageRequest (VStr "Mia and the Kite") (VStr "Soft storybook watercolor")
         sample_story;
       CardImageRequest 0 (VStr "Soft storybook watercolor") (VStr "Mia loses her kite");
       CardImageRequest 2 (VStr "Soft storybook watercolor") (VStr "A dog finds it")] /\
    publications_of new
    = [None;
       Some (VObj (content_with_ids odd_prompt_world "Mia"
                     (sample_props four_questions odd_events) odd_events));
       Some (VObj (set_prop "storyImageUrl" (VStr "data:image/png;base64,hero")
                     (content_with_ids odd_prompt_world "Mia"
                        (sample_props four_questions odd_events) odd_events)));
       Some (VObj (final_content odd_prompt_world "Mia"
                     (sample_props four_questions odd_events) odd_events))] /\
    has_alert new = false.
Proof.
  apply (requests_in_order odd_prompt_world "kite" "Mia" "Easy" app_mount tt
           (text_response (Some "payload")) (image_response "hero") "payload"
           (sample_props four_questions odd_events) odd_events
           (StoryImageRequest (VStr "Mia and the Kite")
              (VStr "Soft storybook watercolor") sample_story)).
  - reflexivity.
  - reflexivity.
  - reflexivity.
  - reflexivity.
  - reflexivity.
  - reflexivity.
  - reflexivity.
Defined.

(** ** Displayed events *)

Section DisplayedEvents.
Variable w : World.
Variable childName : string.
Variable ps : list (string * value).
Variable evs : list value.

(** X13. In the toolkit on display after an accepted run, the event at
    position [i] carries the identifier made from the clock and [i], also
    when the payload brought an [id] of its own, and no two events share an
    identifier, whatever the clock returned. *)
Theorem displayed_ids_distinct updated i j a b :
  lookup_prop "sequenceEvents" (final_content w childName ps evs) = VArr updated ->
  updated !! i = Some a ->
  updated !! j = Some b ->
  get_prop a "id" = Ok (VStr (event_id w i)) /\
  (get_prop a "id" = get_prop b "id" -> i = j).
Proof.
  intros Hup Ha Hb.
  destruct (final_events_shape w childName ps evs) as (updated' & Hup' & Hlen & Hev).
  rewrite Hup in Hup'. injection Hup' as <-.
  assert (forall n x, updated !! n = Some x ->
            get_prop x "id" = Ok (VStr (event_id w n))) as Hid.
  { intros n x Hx.
    destruct (lookup_lt_is_Some_2 evs n) as [e He].
    { rewrite <- Hlen. by eapply lookup_lt_Some. }
    destruct (Hev n e He) as (event & Hn & Hidn & _).
    rewrite Hx in Hn. injection Hn as ->. simpl. by rewrite Hidn. }
  split; [by apply Hid |].
  rewrite (Hid i a Ha), (Hid j b Hb). intros Heq.
  apply (event_id_inj w). congruence.
Qed.

(** X14. Stamping and illustrating change nothing but [id] and [imageUrl]:
    every other property of a displayed event is the one the payload gave
    it, and the events are as many and in the same order. *)
Theorem displayed_events_keep_fields :
  exists updated,
    lookup_prop "sequenceEvents" (final_content w childName ps evs) = VArr updated /\
    length updated = length evs /\
    forall i e k,
      evs !! i = Some e ->
      String.eqb k "id" = false -> String.eqb k "imageUrl" = false ->
      exists event,
        updated !! i = Some (VObj event) /\
        lookup_prop k event = lookup_prop k (spread e).
Proof.
  destruct (final_events_shape w childName ps evs) as (updated & Hup & Hlen & Hev).
  exists updated. split; [done |]. split; [done |].
  intros i e k Hi Hid Himg. destruct (Hev i e Hi) as (event & Hu & _ & Hk).
  exists event. split; [done |]. by apply Hk.
Qed.

End DisplayedEvents.

Lemma displayed_ids_distinct_witness :
  exists updated a b,
    lookup_prop "sequenceEvents"
      (final_content ticking_world "Mia"
         (sample_props four_questions events_with_own_id) events_with_own_id)
    = VArr updated /\
    updated !! 0 = Some a /\
    updated !! 1 = Some b /\
    get_prop a "id" = Ok (VStr "evt-1700000000000-0") /\
    (get_prop a "id" = get_prop b "id" -> 0 = 1).
Proof.
  eexists _, _, _. split; [reflexivity |]. split; [reflexivity |].
  split; [reflexivity |].
  eapply (displayed_ids_distinct ticking_world "Mia"
            (sample_props four_questions events_with_own_id) events_with_own_id
            _ 0 1); reflexivity.
Defined.

Lemma displayed_events_keep_fields_witness :
  exists updated event,
    lookup_prop "sequenceEvents"
      (final_content ticking_world "Mia"
         (sample_props four_questions events_with_own_id) events_with_own_id)
    = VArr updated /\
    length updated = 2 /\
    updated !! 1 = Some (VObj event) /\
    lookup_prop "text" event = VStr "A dog finds it".
Proof.
  destruct (displayed_events_keep_fields ticking_world "Mia"
              (sample_props four_questions events_with_own_id) events_with_own_id)
    as (updated & Hup & Hlen & Hev).
  destruct (Hev 1 (VObj [("id", VStr "same"); ("order", VNum 2);
                         ("text", VStr "A dog finds it");
                         ("imagePrompt", VStr "A dog holds a red kite")])
              "text" eq_refl eq_refl eq_refl) as (event & Hu & Hk).
  by exists updated, event.
Defined.

(** * The form *)

Section Trim.
Implicit Types (s : string) (c : ascii).

Lemma trimStart_blank s : trimStart s = EmptyString <-> blank s = true.
Proof.
  induction s as [| c s IH]; simpl; [done |].
  destruct (is_white_space c); simpl; [done |]. split; discriminate.
Qed.

Lemma trimEnd_blank s : trimEnd s = EmptyString <-> blank s = true.
Proof.
  induction s as [| c s IH]; simpl; [done |].
  destruct (trimEnd s) as [| d t] eqn:Ht.
  - destruct (is_white_space c); simpl.
    + split; [intros _; by apply IH | done].
    + split; discriminate.
  - split; [discriminate |]. intros [_ Hb]%andb_true_iff.
    apply IH in Hb. discriminate Hb.
Qed.

Lemma trimStart_head s :
  match trimStart s with
  | EmptyString => True
  | String c _ => is_white_space c = false
  end.
Proof.
  induction s as [| c s IH]; simpl; [done |].
  by destruct (is_white_space c) eqn:Hc; simpl.
Qed.

Lemma trimEnd_head c s :
  trimEnd (String c s) = EmptyString \/ exists t, trimEnd (String c s) = String c t.
Proof.
  simpl. destruct (trimEnd s) as [| d t].
  - destruct (is_white_space c); [by left | right; by eexists].
  - right. by eexists.
Qed.

Lemma trimEnd_idem s : trimEnd (trimEnd s) = trimEnd s.
Proof.
  induction s as [| c s IH]; simpl; [done |].
  destruct (trimEnd s) as [| d t] eqn:Ht.
  - destruct (is_white_space c) eqn:Hc; simpl; [done |]. by rewrite Hc.
  - change (trimEnd (String c (String d t))) with
      (match trimEnd (String d t) with
       | EmptyString => if is_white_space c then EmptyString else String c EmptyString
       | kept => String c kept
       end).
    by rewrite IH.
Qed.

Lemma trim_blank s : trim s = EmptyString <-> blank s = true.
Proof.
  unfold trim. rewrite trimEnd_blank. rewrite <- !trimStart_blank.
  pose proof (trimStart_head s) as Hh.
  destruct (trimStart s) as [| c t] eqn:Hs; [done |]. simpl. by rewrite Hh.
Qed.

Lemma trim_idem s : trim (trim s) = trim s.
Proof.
  unfold trim. pose proof (trimStart_head s) as Hh.
  destruct (trimStart s) as [| c t] eqn:Hs; [done |].
  destruct (trimEnd_head c t) as [-> | [t' Ht]]; [done |].
  rewrite Ht. simpl trimStart. rewrite Hh. rewrite <- Ht. apply trimEnd_idem.
Qed.

(** X15. [handleSubmit] starts a generation exactly when the topic has a
    character that is not white space. It then passes the topic as typed,
    the difficulty as chosen, and as the child's name the trimmed input,
    or ["the student"] when the input is blank: a name that is never empty
    and has no white space around it. *)
Theorem handleSubmit_call (topic childName difficulty : string) :
  match handleSubmit topic childName difficulty with
  | None => blank topic = true
  | Some (t, c, d) =>
    blank topic = false /\
    t = topic /\
    d = difficulty /\
    c = (if blank childName then "the student"%string else trim childName) /\
    c <> EmptyString /\
    trim c = c
  end.
Proof.
  unfold handleSubmit, truthy.
  destruct (String.eqb (trim topic) EmptyString) eqn:Ht.
  - apply String.eqb_eq in Ht. by apply trim_blank.
  - apply String.eqb_neq in Ht.
    split. { destruct (blank topic) eqn:Hb; [| done]. by apply trim_blank in Hb. }
    split; [done |]. split; [done |].
    destruct (String.eqb (trim childName) EmptyString) eqn:Hc; simpl.
    + apply String.eqb_eq, trim_blank in Hc. rewrite Hc. by split.
    + apply String.eqb_neq in Hc.
      destruct (blank childName) eqn:Hb; [by apply trim_blank in Hb |].
      split; [done |]. split; [done |]. apply trim_idem.
Qed.

End Trim.
